(** * atooms.postprocessing: radial distribution function and non-Gaussian
      parameter

    A shallow embedding of [atooms/postprocessing/gr.py] and
    [atooms/postprocessing/alpha2.py], and the properties of the two numerical
    kernels and of their estimators.

    Numbers.  The Python code computes with numpy [float64].  Two models of
    these numbers are used.  In the estimators, and wherever a statement is
    about counts, shapes, errors, the identity of objects or the expression the
    code evaluates, a float is an exact rational or one of the three special
    values of IEEE 754 ([inf], [-inf], [nan]): arithmetic on finite values is
    exact (no rounding, no overflow, one unsigned zero), and the special values
    arise and propagate as IEEE 754 prescribes (division by zero, [inf - inf],
    [0 * inf]).  Where rounding decides (the bound on the minimum image, the
    order of the sums of the non-Gaussian parameter) the two kernels are
    modelled a second time, in module [Binary64], on the doubles of the
    processor; [value_of] gives the exact value of a double.

    Objects.  Where the code tests object identity ([x is y]) an object is
    referred to by its address in a store, so that two distinct objects can hold
    equal contents.

    Errors.  Code that can raise returns a [result]; [analyze], whose [try]
    encloses statements that raise and statements that change the object,
    threads the object explicitly.

    Absent code.  [numpy] is modelled as its documentation and implementation
    describe it.  The base class [Correlation] and the helpers of the package
    ([ifabsmm], [adjust_skip], [linear_grid]) are not part of the two files:
    the attributes the two classes read are fields of records, and [ifabsmm]
    is a parameter. *)

From Stdlib Require Import ZArith QArith Qcanon Qround Lia Lqa List.
From Stdlib Require Floats.
From stdpp Require Import base option list gmap strings.

Local Open Scope Z_scope.

(** ** Exceptions and results *)

Inductive exn : Type :=
| ZeroDivisionError
| ValueError
| IndexError
| TypeError
| ImportError
| OtherError (msg : string).

Inductive result (A : Type) : Type :=
| Ok (a : A)
| Raise (e : exn).
Arguments Ok {A} a.
Arguments Raise {A} e.

Global Instance result_ret : MRet result := λ A a, Ok a.
Global Instance result_bind : MBind result := λ A B k m,
  match m with
  | Ok a => k a
  | Raise e => Raise e
  end.

(** ** Idealised floats *)

Inductive float : Type :=
| Fin (q : Qc)
| PInf
| NInf
| NaN.

Definition of_Z (z : Z) : float := Fin (Qc_of_Z z).
Definition of_nat (n : nat) : float := of_Z (Z.of_nat n).

Definition fzero : float := Fin 0%Qc.
Definition fone : float := Fin 1%Qc.
Definition fhalf : float := Fin (Q2Qc (1 # 2)).

Definition is_finite (a : float) : bool :=
  match a with Fin _ => true | _ => false end.

Definition Qc_eqb (a b : Qc) : bool := Qeq_bool a b.
Definition Qc_ltb (a b : Qc) : bool := negb (Qle_bool b a).
Definition Qc_leb (a b : Qc) : bool := Qle_bool a b.

Definition fneg (a : float) : float :=
  match a with
  | Fin q => Fin (- q)%Qc
  | PInf => NInf
  | NInf => PInf
  | NaN => NaN
  end.

Definition fadd (a b : float) : float :=
  match a, b with
  | NaN, _ | _, NaN => NaN
  | PInf, NInf | NInf, PInf => NaN
  | PInf, _ | _, PInf => PInf
  | NInf, _ | _, NInf => NInf
  | Fin p, Fin q => Fin (p + q)%Qc
  end.

Definition fsub (a b : float) : float := fadd a (fneg b).

(** The sign of a finite value: [Lt], [Eq] or [Gt] as it compares with 0. *)
Definition Qc_sign (q : Qc) : comparison := (q ?= 0)%Qc.

Definition inf_of_sign (c : comparison) : float :=
  match c with
  | Gt => PInf
  | Lt => NInf
  | Eq => NaN
  end.

Definition fsign (a : float) : option comparison :=
  match a with
  | Fin q => Some (Qc_sign q)
  | PInf => Some Gt
  | NInf => Some Lt
  | NaN => None
  end.

Definition sign_mul (c d : comparison) : comparison :=
  match c, d with
  | Eq, _ | _, Eq => Eq
  | Gt, Gt | Lt, Lt => Gt
  | _, _ => Lt
  end.

Definition fmul (a b : float) : float :=
  match a, b with
  | Fin p, Fin q => Fin (p * q)%Qc
  | _, _ =>
      match fsign a, fsign b with
      | Some c, Some d => inf_of_sign (sign_mul c d)
      | _, _ => NaN
      end
  end.

(** Division.  A finite value divided by zero is [nan] when it is zero and an
    infinity of its sign otherwise (numpy warns and does not raise); the zero
    divisor counts as [+0]. *)
Definition fdiv (a b : float) : float :=
  match a, b with
  | NaN, _ | _, NaN => NaN
  | Fin p, Fin q =>
      if Qc_eqb q 0 then inf_of_sign (Qc_sign p) else Fin (p / q)%Qc
  | Fin _, _ => fzero
  | _, Fin q =>
      match Qc_sign q with
      | Lt => fneg a
      | _ => a
      end
  | _, _ => NaN
  end.

(** [x ** 2] and [x ** 3] with an integer exponent. *)
Definition fsquare (a : float) : float := fmul a a.
Definition fcube (a : float) : float := fmul (fmul a a) a.

(** Comparisons; every comparison with [nan] is false. *)
Definition fltb (a b : float) : bool :=
  match a, b with
  | NaN, _ | _, NaN => false
  | Fin p, Fin q => Qc_ltb p q
  | PInf, _ | _, NInf => false
  | _, _ => true
  end.

Definition fleb (a b : float) : bool :=
  match a, b with
  | NaN, _ | _, NaN => false
  | Fin p, Fin q => Qc_leb p q
  | NInf, _ | _, PInf => true
  | _, _ => false
  end.

(** [numpy.rint]: the nearest integer, a tie going to the even one. *)
Definition Qrint (q : Q) : Z :=
  let f := Qfloor q in
  match (q - inject_Z f ?= 1 # 2)%Q with
  | Lt => f
  | Gt => f + 1
  | Eq => if Z.even f then f else f + 1
  end.

Definition rint (a : float) : float :=
  match a with
  | Fin q => of_Z (Qrint q)
  | _ => a
  end.


(** [numpy.sum] of a flat array. *)
Definition fsum (l : list float) : float := foldr fadd fzero l.
Definition fprod (l : list float) : float := foldr fmul fone l.

(** ** Python and numpy primitives *)

(** [range(start, stop, step)] for a positive [step]. *)
Definition py_range (start stop step : nat) : list nat :=
  map (λ k, start + k * step)%nat (seq 0 ((stop - start + step - 1) / step)%nat).

(** [a / b] on Python floats: division by zero raises. *)
Definition py_truediv (a b : float) : result float :=
  match b with
  | Fin q => if Qc_eqb q 0 then Raise ZeroDivisionError else Ok (fdiv a b)
  | _ => Ok (fdiv a b)
  end.

(** [int(a)]: truncation towards zero; [inf] and [nan] are refused. *)
Definition py_int (a : float) : result Z :=
  match a with
  | Fin q => Ok (Z.quot (Qnum q) (Zpos (Qden q)))
  | _ => Raise ValueError
  end.

(** A for loop whose body can raise. *)
Fixpoint foldM {A B} (body : B → A → result B) (l : list A) (b : B) : result B :=
  match l with
  | [] => Ok b
  | a :: l => b' ← body b a; foldM body l b'
  end.

(** A one-dimensional and a two-dimensional array of floats. *)
Abbreviation row := (list float).
Abbreviation array2 := (list (list float)).

(** Elementwise operations, and a 2-d array against a row (broadcasting). *)
Definition row_op (op : float → float → float) (a b : row) : row := zip_with op a b.
Definition array2_op (op : float → float → float) (a b : array2) : array2 :=
  zip_with (row_op op) a b.
Definition broadcast_op (op : float → float → float) (a : array2) (b : row) : array2 :=
  map (λ ai, row_op op ai b) a.
Definition array2_map (g : float → float) (a : array2) : array2 := map (map g) a.

(** [numpy.sum(a)] and [numpy.sum(a, axis=1)] of a 2-d array. *)
Definition sum_all (a : array2) : float := fsum (concat a).
Definition sum_axis1 (a : array2) : row := map fsum a.

(** [numpy.histogram(a, bins)] for a sequence [bins] of edges, as numpy computes
    it: [cum] counts the values below each edge (at most the edge, for the last
    one), and the count of a bin is the difference of two consecutive [cum].
    Edges that decrease somewhere are refused.  Only the counts are returned:
    the edges come back as they went in. *)
Definition count_if (p : float → bool) (a : list float) : Z :=
  Z.of_nat (length (filter (λ v, p v = true) a)).

Fixpoint monotonic (bins : list float) : bool :=
  match bins with
  | e :: ((e' :: _) as rest) => negb (fltb e' e) && monotonic rest
  | _ => true
  end.

Fixpoint cum_counts (a : list float) (bins : list float) : list Z :=
  match bins with
  | [] => []
  | [e] => [count_if (λ v, fleb v e) a]
  | e :: rest => count_if (λ v, fltb v e) a :: cum_counts a rest
  end.

Fixpoint diff (c : list Z) : list Z :=
  match c with
  | c0 :: ((c1 :: _) as rest) => (c1 - c0) :: diff rest
  | _ => []
  end.

Definition histogram (a : list float) (bins : list float) : result (list Z) :=
  if monotonic bins then Ok (diff (cum_counts a bins)) else Raise ValueError.

(** [hist += hist_tmp] *)
Definition hist_add (hist hist_tmp : list Z) : list Z := zip_with Z.add hist hist_tmp.

(** ** gr.py *)

Section Gr.

(** [numpy.sqrt], which has no exact counterpart on the rationals, is left
    uninterpreted. *)
Variable sqrt : float → float.

(** The minimum image of the difference [r] in a cell of sides [L]:
    [r - numpy.rint(r/L) * L]. *)
Definition minimum_image (r : array2) (L : row) : array2 :=
  array2_op fsub r (broadcast_op fmul (array2_map rint (broadcast_op fdiv r L)) L).

Definition gr_kernel (x : array2) (y L : row) : row :=
  let r := broadcast_op fsub x y in
  let r := minimum_image r L in
  map sqrt (sum_axis1 (array2_map fsquare r)).

Definition gr_kernel_square (x : array2) (y L : row) : row :=
  let r := broadcast_op fsub x y in
  let r := minimum_image r L in
  sum_axis1 (array2_map fsquare r).

(** The batch size of [pairs_newton_hist]:
    [max(1, int(100 * 1000.0 / len(y)))]. *)
Definition batch_length (y : array2) : result nat :=
  q ← py_truediv (fmul (of_Z 100) (of_Z 1000)) (of_nat (length y));
  n ← py_int q;
  mret (max 1 (Z.to_nat n)).

(** The values of one batch: rows [ib] to [min(ib+bl, len(y)-1)] of the outer
    loop, each against the rows of [x] after it.  The index [i] is below
    [len(y) - 1]: [y[i]] is in range.  For an empty [y] the range is empty in
    Python ([len(y) - 1] is [-1]) as it is here (the difference is 0). *)
Definition batch_values (f : array2 → row → row → row) (x y : array2) (L : row)
    (ib bl : nat) : list float :=
  flat_map (λ i, f (drop (i + 1) x) (y !!! i) L)
           (py_range ib (min (ib + bl) (length y - 1)) 1).

(** The loop of [pairs_newton_hist] for a batch size [bl]. *)
Definition pairs_newton_loop (f : array2 → row → row → row) (x y : array2) (L : row)
    (bins : list float) (bl : nat) (hist : list Z) : result (list Z) :=
  foldM (λ hist ib,
           hist_tmp ← histogram (batch_values f x y L ib bl) bins;
           mret (hist_add hist hist_tmp))
        (py_range 0 (length y - 1) bl) hist.

Definition pairs_newton_hist (f : array2 → row → row → row) (x y : array2) (L : row)
    (bins : list float) : result (list Z) :=
  hist ← histogram [] bins;
  bl ← batch_length y;
  pairs_newton_loop f x y L bins bl hist.

(** [pairs_newton_hist] with the batch size as an argument instead of the
    constant of [batch_length]. *)
Definition pairs_newton_hist_bl (bl : nat) (f : array2 → row → row → row)
    (x y : array2) (L : row) (bins : list float) : result (list Z) :=
  hist ← histogram [] bins;
  pairs_newton_loop f x y L bins bl hist.

Definition pairs_hist (f : array2 → row → row → row) (x y : array2) (L : row)
    (bins : list float) : result (list Z) :=
  hist ← histogram [] bins;
  foldM (λ hist i,
           hist_tmp ← histogram (f x (y !!! i) L) bins;
           mret (hist_add hist hist_tmp))
        (py_range 0 (length y) 1) hist.

(** *** RadialDistributionFunction *)

(** Modelled from the spec: the trajectory, whose class is not in the sources.
    What [_compute] reads of it: the side of the cell of each frame
    ([trajectory.read(i).cell.side]) and the [grandcanonical] flag;
    [len(trajectory)] is the number of frames. *)
Record trajectory : Type := {
  cells : list row;
  grandcanonical : bool
}.

(** The address of an object.  [_pos_0] and [_pos_1], which the base class
    [Correlation] fills in, refer to lists holding the positions of the
    particles of each frame; the store gives the contents. *)
Definition addr : Type := nat.
Definition is_ (a b : addr) : bool := Nat.eqb a b.

(** The attributes of the object that [_compute] reads or writes; [skip] is
    the stride that [adjust_skip] gave to [__init__]. *)
Record RadialDistributionFunction : Type := {
  rdf_trajectory : trajectory;
  skip : nat;
  side : row;
  grid : list float;
  value : list float;
  _pos_0 : addr;
  _pos_1 : addr
}.

(** [l[i]] *)
Definition py_index {A} (l : list A) (i : nat) : result A :=
  match l !! i with
  | Some a => Ok a
  | None => Raise IndexError
  end.

(** [math.pi], the float nearest to the number pi. *)
Definition math_pi : float := Fin (Q2Qc (884279719003555 # 281474976710656)).

(** [numpy.average] of a list of integers: [nan] for the empty list. *)
Definition average (l : list nat) : float :=
  fdiv (of_nat (foldr Nat.add 0%nat l)) (of_nat (length l)).

(** [numpy.average(gr_all, axis=0)].  [numpy.average] takes [a.mean(axis)], the
    mean of each column and, of an empty list, the scalar [nan]; it then
    computes the scale [a.size / avg.size] on Python integers, which raises
    [ZeroDivisionError] when the mean has no entry: histograms without bins. *)
Inductive ndarray : Type :=
| Scalar (a : float)
| Vector (v : row).

Definition column_sums (rows : list (list Z)) : list Z :=
  match rows with
  | [] => []
  | h :: rest => foldl hist_add h rest
  end.

Definition mean_axis0 (gr_all : list (list Z)) : ndarray :=
  match gr_all with
  | [] => Scalar NaN
  | _ => Vector (map (λ s, fdiv (of_Z s) (of_nat (length gr_all))) (column_sums gr_all))
  end.

Definition ndarray_size (a : ndarray) : nat :=
  match a with
  | Scalar _ => 1
  | Vector v => length v
  end.

Definition average_axis0 (gr_all : list (list Z)) : result ndarray :=
  let avg := mean_axis0 gr_all in
  if (ndarray_size avg =? 0)%nat then Raise ZeroDivisionError else Ok avg.

(** [gr / norm], a scalar [gr] being broadcast. *)
Definition ndarray_div (gr : ndarray) (norm : row) : row :=
  match gr with
  | Scalar a => map (fdiv a) norm
  | Vector v => zip_with fdiv v norm
  end.

(** The particle numbers [N_0, N_1] of the normalization. *)
Definition particle_numbers (tr : trajectory) (pos_0 pos_1 : list array2)
    : result (float * float) :=
  if grandcanonical tr then
    Ok (average (map length pos_0), average (map length pos_1))
  else
    p0 ← py_index pos_0 0;
    p1 ← py_index pos_1 0;
    Ok (of_nat (length p0), of_nat (length p1)).

(** The histogram of one frame: Newton's third law when the two lists of
    positions are one object. *)
Definition frame_pair_hist (self : RadialDistributionFunction) (p0 p1 : array2)
    (side r : list float) : result (list Z) :=
  if is_ (_pos_0 self) (_pos_1 self)
  then pairs_newton_hist gr_kernel p0 p1 side r
  else pairs_hist gr_kernel p0 p1 side r.

(** One turn of the loop over the frames, on [self.side] and [gr_all]. *)
Definition frame_step (store : addr → list array2) (self : RadialDistributionFunction)
    (r : list float) (st : row * list (list Z)) (i : nat)
    : result (row * list (list Z)) :=
  side ← py_index (cells (rdf_trajectory self)) i;
  p0 ← py_index (store (_pos_0 self)) i;
  if (length p0 =? 0)%nat then Ok (side, st.2) else
  p1 ← py_index (store (_pos_1 self)) i;
  if (length p1 =? 0)%nat then Ok (side, st.2) else
  gr ← frame_pair_hist self p0 p1 side r;
  Ok (side, st.2 ++ [gr]).

(** [range(0, ncfg, self.skip)]; a zero step is refused. *)
Definition sampled_frames (self : RadialDistributionFunction) : result (list nat) :=
  if (skip self =? 0)%nat then Raise ValueError
  else Ok (py_range 0 (length (cells (rdf_trajectory self))) (skip self)).

Definition frame_loop (store : addr → list array2) (self : RadialDistributionFunction)
    (r : list float) : result (row * list (list Z)) :=
  frames ← sampled_frames self;
  foldM (frame_step store self r) frames (side self, []).

(** [vol = 4 * math.pi / 3.0 * (r[1:]**3 - r[:-1]**3)] *)
Definition shell_volumes (r : list float) : row :=
  map (fmul (fdiv (fmul (of_Z 4) math_pi) (of_Z 3)))
      (zip_with (λ hi lo, fsub (fcube hi) (fcube lo)) (tail r) (removelast r)).

(** [norm = rho * vol * N_0 * 0.5], or without the last factor *)
Definition normalization (self_pair : bool) (rho : float) (vol : row) (N_0 : float) : row :=
  if self_pair
  then map (λ v, fmul (fmul (fmul rho v) N_0) fhalf) vol
  else map (λ v, fmul (fmul rho v) N_0) vol.

(** [(r[:-1] + r[1:]) / 2.0] *)
Definition bin_centers (r : list float) : row :=
  zip_with (λ lo hi, fdiv (fadd lo hi) (of_Z 2)) (removelast r) (tail r).

Definition _compute (store : addr → list array2) (self : RadialDistributionFunction)
    : result RadialDistributionFunction :=
  '(N_0, N_1) ← particle_numbers (rdf_trajectory self)
                   (store (_pos_0 self)) (store (_pos_1 self));
  _ ← histogram [] (grid self);
  let r := grid self in
  '(side, gr_all) ← frame_loop store self r;
  let vol := shell_volumes r in
  let rho := fdiv N_1 (fprod side) in
  let norm := normalization (is_ (_pos_0 self) (_pos_1 self)) rho vol N_0 in
  gr ← average_axis0 gr_all;
  Ok {| rdf_trajectory := rdf_trajectory self;
        skip := skip self;
        side := side;
        grid := bin_centers r;
        value := ndarray_div gr norm;
        _pos_0 := _pos_0 self;
        _pos_1 := _pos_1 self |}.

End Gr.

(** ** alpha2.py *)

(** [x] and [y] refer to arrays of positions, one row per particle. *)
Definition non_gaussian_moments (x y : array2) : float :=
  let dx2 := array2_map fsquare (array2_op fsub x y) in
  let dr2 := fdiv (sum_all dx2) (of_nat (length x)) in
  let dr4 := fdiv (fsum (map fsquare (sum_axis1 dx2))) (of_nat (length x)) in
  fsub (fdiv (fmul (of_Z 3) dr4) (fmul (of_Z 5) (fsquare dr2))) (of_Z 1).

Definition non_gaussian_parameter (store : addr → array2) (x y : addr) : float :=
  if is_ x y then fzero
  else non_gaussian_moments (store x) (store y).

(** *** NonGaussianParameter.analyze *)

(** Python values, as far as [analyze] looks into them. *)
#[warnings="-register-all"] Inductive pyval : Type :=
| PyNone
| PyInt (z : Z)
| PyFloat (a : float)
| PySeq (l : list pyval).

(** [v[i]] *)
Definition py_getitem (v : pyval) (i : nat) : result pyval :=
  match v with
  | PySeq l => py_index l i
  | _ => Raise TypeError
  end.

(** The unpacking of [a, b = v]. *)
Definition py_unpack2 (v : pyval) : result (pyval * pyval) :=
  match v with
  | PySeq [a; b] => Ok (a, b)
  | PySeq _ => Raise ValueError
  | _ => Raise TypeError
  end.

(** Modelled from the spec: the slots of the base class [Correlation] (not in
    the sources) that [analyze] uses, the [grid] and [value] of the curve and
    the [results] mapping of the named derived statistics. *)
Record NonGaussianParameter : Type := {
  ngp_grid : pyval;
  ngp_value : pyval;
  results : gmap string pyval
}.

Definition set_result (key : string) (v : pyval) (self : NonGaussianParameter)
    : NonGaussianParameter :=
  {| ngp_grid := ngp_grid self;
     ngp_value := ngp_value self;
     results := <[key := v]> (results self) |}.

(** Statements that change the object and can raise: the object as it is when
    the statement ends or raises, and the outcome. *)
Definition stmt (S A : Type) : Type := S → S * result A.

Global Instance stmt_ret {S} : MRet (stmt S) := λ A a s, (s, Ok a).
Global Instance stmt_bind {S} : MBind (stmt S) := λ A B k m s,
  match m s with
  | (s', Ok a) => k a s'
  | (s', Raise e) => (s', Raise e)
  end.
Definition lift {S A} (m : result A) : stmt S A := λ s, (s, m).
Definition read {S A} (g : S → A) : stmt S A := λ s, (s, Ok (g s)).
Definition update {S} (g : S → S) : stmt S unit := λ s, (g s, Ok tt).

(** [try: body except: handler] *)
Definition try_except {S A} (body handler : stmt S A) : stmt S A :=
  λ s, match body s with
       | (s', Raise _) => handler s'
       | done => done
       end.

Section Analyze.

(** [from .helpers import ifabsmm]: the import can fail; the function takes the
    grid and the values and returns a value or raises. *)
Variable import_ifabsmm : result (pyval → pyval → result pyval).

Definition analyze_body : stmt NonGaussianParameter unit :=
  ifabsmm ← lift import_ifabsmm;
  grid ← read ngp_grid;
  value ← read ngp_value;
  report ← lift (ifabsmm grid value);
  item ← lift (py_getitem report 1);
  '(t_star, a2_star) ← lift (py_unpack2 item);
  _ ← update (set_result "t_star" t_star);
  update (set_result "a2_star" a2_star).

(** [except: pass] *)
Definition analyze : stmt NonGaussianParameter unit :=
  try_except analyze_body (mret tt).

End Analyze.

(** ** Definitions for the statements *)

(** *** Floats *)

Definition finite (a : float) : Prop := is_finite a = true.

(** A period: finite and strictly positive. *)
Definition positive_period (a : float) : Prop := is_finite a = true ∧ fltb fzero a = true.

(** Values that are zero or [nan]. *)
Definition zero_or_nan (a : float) : Prop := a = fzero ∨ a = NaN.

(** Equality of floats as values ([nan] equal to itself). *)
Definition float_eqb (a b : float) : bool :=
  match a, b with
  | Fin p, Fin q => Qc_eqb p q
  | PInf, PInf | NInf, NInf | NaN, NaN => true
  | _, _ => false
  end.

Definition frac (n : Z) (d : positive) : float := Fin (Q2Qc (n # d)).

(** A square root for the examples: exact on the squares of rationals, hence on
    the distances of particles on a line. *)
Definition sqrt_rational (a : float) : float :=
  match a with
  | Fin q =>
      if Qc_ltb q 0 then NaN
      else Fin (Q2Qc (Z.sqrt (Qnum q) # Pos.sqrt (Qden q)))
  | NInf => NaN
  | _ => a
  end.

(** *** The minimum image *)

(** The wrapped displacement of one component. *)
Definition wrap1 (d l : float) : float := fsub d (fmul (rint (fdiv d l)) l).

(** *** Histograms *)

(** The counts of a histogram whose edges are accepted. *)
Definition bin_counts (a bins : list float) : list Z := diff (cum_counts a bins).

Fixpoint strictly_increasing (bins : list float) : bool :=
  match bins with
  | e :: ((e' :: _) as rest) => fltb e e' && strictly_increasing rest
  | _ => true
  end.

(** The values that fall within the edges of a histogram with at least one bin. *)
Definition in_range (bins : list float) (v : float) : bool :=
  match bins with
  | lo :: _ :: _ => fleb lo v && fleb v (List.last bins NaN)
  | _ => false
  end.

(** *** Pairs *)

(** A kernel that works row by row: one value for each row of [x]. *)
Definition rowwise (f : array2 → row → row → row) : Prop :=
  ∀ (x : array2) (y L : row),
    f x y L = flat_map (λ xi, f [xi] y L) x ∧ Forall (λ xi, length (f [xi] y L) = 1%nat) x.

(** The values [pairs_newton_hist] applies the histogram to, batches apart. *)
Definition newton_values (f : array2 → row → row → row) (x y : array2) (L : row)
    : list float :=
  flat_map (λ i, f (drop (i + 1) x) (y !!! i) L) (seq 0 (length y - 1)).

(** The values [pairs_hist] applies the histogram to. *)
Definition cross_values (f : array2 → row → row → row) (x y : array2) (L : row)
    : list float :=
  flat_map (λ i, f x (y !!! i) L) (seq 0 (length y)).

(** The brute-force computation of the specification: all the [N * N] pairs of
    indices, of which those with [i < j] are kept, and the value of the kernel
    for each. *)
Definition all_index_pairs (N : nat) : list (nat * nat) :=
  flat_map (λ i, map (pair i) (seq 0 N)) (seq 0 N).

Definition brute_force_values (f : array2 → row → row → row) (x : array2) (L : row)
    : list float :=
  flat_map (λ p, f [x !!! p.2] (x !!! p.1) L)
           (filter (λ p, (p.1 < p.2)%nat) (all_index_pairs (length x))).

(** *** The frames of a trajectory *)

(** The frames of the loop of [_compute]. *)
Definition sampled (self : RadialDistributionFunction) : list nat :=
  py_range 0 (length (cells (rdf_trajectory self))) (skip self).

Section Frames.

Variable sqrt : float → float.
Variable store : addr → list array2.
Variable self : RadialDistributionFunction.

(** A frame without particles in one of the two sets. *)
Definition degenerate (i : nat) : bool :=
  (length (store (_pos_0 self) !!! i) =? 0)%nat
  || (length (store (_pos_1 self) !!! i) =? 0)%nat.

(** The frames of the loop that are not skipped. *)
Definition processed_frames : list nat :=
  filter (λ i, degenerate i = false) (sampled self).

(** The histogram of frame [i]. *)
Definition frame_values (i : nat) : list float :=
  let p0 := store (_pos_0 self) !!! i in
  let p1 := store (_pos_1 self) !!! i in
  let side := cells (rdf_trajectory self) !!! i in
  if is_ (_pos_0 self) (_pos_1 self)
  then newton_values (gr_kernel sqrt) p0 p1 side
  else cross_values (gr_kernel sqrt) p0 p1 side.

Definition frame_histogram (i : nat) : list Z :=
  bin_counts (frame_values i) (grid self).

(** The object [_compute] can work on: a positive stride, increasing edges, the
    positions of every frame and, unless the trajectory is grand canonical, a
    first frame. *)
Record well_formed : Prop := {
  wf_skip : skip self ≠ 0%nat;
  wf_grid : monotonic (grid self) = true;
  wf_pos_0 : length (store (_pos_0 self)) = length (cells (rdf_trajectory self));
  wf_pos_1 : length (store (_pos_1 self)) = length (cells (rdf_trajectory self));
  wf_first : grandcanonical (rdf_trajectory self) = false → cells (rdf_trajectory self) ≠ []
}.

End Frames.

(** *** The normalization *)

(** [N_0] or [N_1] as [_compute] takes it: the mean over all the frames of a
    grand-canonical trajectory, the number of particles of the first frame
    otherwise. *)
Definition particle_number (tr : trajectory) (pos : list array2) : float :=
  if grandcanonical tr then average (map length pos)
  else of_nat (length (pos !!! 0%nat)).

(** The arithmetic mean of bin [k] over the histograms of [gr_all]. *)
Definition mean_histogram (gr_all : list (list Z)) (k : nat) : float :=
  fdiv (of_Z (foldr Z.add 0 (map (λ h, h !!! k) gr_all))) (of_nat (length gr_all)).

(** The volume of the shell between two edges. *)
Definition shell_volume (lo hi : float) : float :=
  fmul (fdiv (fmul (of_Z 4) math_pi) (of_Z 3)) (fsub (fcube hi) (fcube lo)).

(** The particle number as the specification words it: the mean over the
    processed frames; and the value of bin [k] normalized with it. *)
Definition mean_processed_count (store : addr → list array2)
    (self : RadialDistributionFunction) (a : addr) : float :=
  average (map (λ i, length (store a !!! i)) (processed_frames store self)).

Definition claimed_value (sqrt : float → float) (store : addr → list array2)
    (self : RadialDistributionFunction) (side' : row) (k : nat) : option float :=
  lo ← grid self !! k;
  hi ← grid self !! (k + 1)%nat;
  let N_0 := mean_processed_count store self (_pos_0 self) in
  let N_1 := mean_processed_count store self (_pos_1 self) in
  let rho := fdiv N_1 (fprod side') in
  let gr_all := map (frame_histogram sqrt store self) (processed_frames store self) in
  Some (fdiv (mean_histogram gr_all k)
             (fmul (fmul (fmul rho (shell_volume lo hi)) N_0)
                   (if is_ (_pos_0 self) (_pos_1 self) then fhalf else fone))).

(** The inputs of the normalization: whether the two sets are one object, the
    two particle numbers and the volume of the cell of the last sampled frame
    (of [self.side] as it was when no frame is sampled); and the normalization
    they give on the edges of the object. *)
Definition last_side (self : RadialDistributionFunction) : row :=
  List.last (map (λ i, cells (rdf_trajectory self) !!! i) (sampled self)) (side self).

Definition normalization_inputs (store : addr → list array2)
    (self : RadialDistributionFunction) : bool * float * float * float :=
  (is_ (_pos_0 self) (_pos_1 self),
   particle_number (rdf_trajectory self) (store (_pos_0 self)),
   particle_number (rdf_trajectory self) (store (_pos_1 self)),
   fprod (last_side self)).

Definition normalization_of (store : addr → list array2)
    (self : RadialDistributionFunction) : row :=
  normalization (is_ (_pos_0 self) (_pos_1 self))
    (fdiv (particle_number (rdf_trajectory self) (store (_pos_1 self)))
          (fprod (last_side self)))
    (shell_volumes (grid self))
    (particle_number (rdf_trajectory self) (store (_pos_0 self))).

(** The trajectory reduced to its frame [k]: the store and the object. *)
Definition only_frame (k : nat) (store : addr → list array2) : addr → list array2 :=
  λ a, match store a !! k with Some p => [p] | None => [] end.

Definition only_frame_self (k : nat) (self : RadialDistributionFunction)
    : RadialDistributionFunction :=
  {| rdf_trajectory :=
       {| cells := match cells (rdf_trajectory self) !! k with
                   | Some s => [s]
                   | None => []
                   end;
          grandcanonical := grandcanonical (rdf_trajectory self) |};
     skip := skip self;
     side := side self;
     grid := grid self;
     value := value self;
     _pos_0 := _pos_0 self;
     _pos_1 := _pos_1 self |}.

(** *** Examples *)

(** Three particles on a line of period 1, in a grand-canonical trajectory
    whose second frame is empty. *)
Definition example_positions : array2 := [[frac 1 10]; [frac 3 10]; [frac 8 10]].
Definition example_store : addr → list array2 := λ _, [example_positions; []].
Definition example_rdf : RadialDistributionFunction :=
  {| rdf_trajectory := {| cells := [[fone]; [fone]]; grandcanonical := true |};
     skip := 1;
     side := [fone];
     grid := [fzero; frac 1 4; frac 1 2];
     value := [];
     _pos_0 := 0%nat;
     _pos_1 := 0%nat |}.

(** The same particles in two identical frames. *)
Definition twice_store : addr → list array2 := λ _, [example_positions; example_positions].

(** Two arrays of positions at different addresses, and a copy of the first at
    a third address. *)
Definition example_arrays : addr → array2 := λ a,
  match a with
  | 1%nat => [[frac 2 10]; [frac 3 10]; [frac 8 10]]
  | _ => example_positions
  end.

(** An empty curve: [ifabsmm] finds no extremum to report. *)
Definition ifabsmm_empty : result (pyval → pyval → result pyval) :=
  Ok (λ _ _, Ok (PySeq [])).

Definition example_ngp : NonGaussianParameter :=
  {| ngp_grid := PySeq []; ngp_value := PySeq []; results := ∅ |}.

(** ** Definitions for the further properties *)

(** The pairs of an index of [y] and an index of [x], and the value of the
    kernel for each pair. *)
Definition index_pairs (M N : nat) : list (nat * nat) :=
  flat_map (λ i, map (pair i) (seq 0 N)) (seq 0 M).

Definition pair_values (f : array2 → row → row → row) (x y : array2) (L : row)
    (pairs : list (nat * nat)) : list float :=
  flat_map (λ p, f [x !!! p.2] (y !!! p.1) L) pairs.

Definition swap (p : nat * nat) : nat * nat := (p.2, p.1).

(** A kernel that gives the same value for a pair of rows of [x] in both
    orders. *)
Definition symmetric_on (f : array2 → row → row → row) (x : array2) (L : row) : Prop :=
  ∀ i j : nat, (i < length x)%nat → (j < length x)%nat →
    f [x !!! j] (x !!! i) L = f [x !!! i] (x !!! j) L.

(** The values of the diagonal: each row of [x] against itself. *)
Definition self_values (f : array2 → row → row → row) (x : array2) (L : row) : list float :=
  flat_map (λ i, f [x !!! i] (x !!! i) L) (seq 0 (length x)).

(** *** RadialDistributionFunction.__init__ *)

(** Any float stands for an element that is not there. *)
Global Instance float_inhabited : Inhabited float := populate NaN.

(** [l[-1]] *)
Definition py_index_last {A} (l : list A) : result A :=
  match last l with
  | Some a => Ok a
  | None => Raise IndexError
  end.

(** Half the first spacing of the centers: [(rgrid[1] - rgrid[0]) / 2]. *)
Definition half_spacing (r0 r1 : float) : float := fdiv (fsub r1 r0) (of_Z 2).

(** The edges that [__init__] reconstructs from the centers [rgrid] (the branch
    [rgrid is not None]): each center moved down by half the first spacing, and
    the last one moved up. *)
Definition grid_edges_step (rgrid grid : list float) (i : nat) : result (list float) :=
  ri ← py_index rgrid i;
  r1 ← py_index rgrid 1;
  r0 ← py_index rgrid 0;
  mret (grid ++ [fsub ri (half_spacing r0 r1)]).

Definition grid_edges (rgrid : list float) : result (list float) :=
  grid ← foldM (grid_edges_step rgrid) (py_range 0 (length rgrid) 1) [];
  rl ← py_index_last rgrid;
  r1 ← py_index rgrid 1;
  r0 ← py_index rgrid 0;
  mret (grid ++ [fadd rl (half_spacing r0 r1)]).

(** A trajectory of two frames without particles. *)
Definition empty_store : addr → list array2 := λ _, [[]; []].

(** An [ifabsmm] that reports a minimum and a maximum. *)
Definition ifabsmm_peak : result (pyval → pyval → result pyval) :=
  Ok (λ _ _, Ok (PySeq [PySeq [PyFloat fzero; PyFloat fzero];
                        PySeq [PyFloat fone; PyFloat fhalf]])).

(** ** The kernels in binary64

    The two kernels as numpy computes them, on IEEE 754 doubles: the
    operations are those of the processor ([PrimFloat]), [numpy.rint] rounds to
    the nearest integer with ties to even, and [numpy.sum] adds in the order of
    numpy's pairwise summation.  Where the shapes of the arrays differ numpy
    broadcasts or raises; the statements on these functions assume equal
    shapes. *)

Module Binary64.

Import PrimFloat SpecFloat FloatOps.

(** A numpy [float64], a Python [float]. *)
Definition double : Set := PrimFloat.float.

(** The rational that the finite double of sign [s], mantissa [m] and exponent
    [e] stands for: [m * 2^e], negated when [s] is set. *)
Definition magnitude (s : bool) (m : positive) (e : Z) : Q :=
  let q := if 0 <=? e then inject_Z (Zpos m * 2 ^ e) else Zpos m # 2 ^ Z.to_pos (- e) in
  if s then (- q)%Q else q.

(** The double of sign [s] that stands for the integer [p], for [p] up to
    [2^53]: the mantissa is [p] shifted to 53 bits. *)
Definition SFof_pos (s : bool) (p : positive) : spec_float :=
  let n := Z.log2 (Zpos p) in
  S754_finite s (Z.to_pos (Zpos p * 2 ^ (52 - n))) (n - 52).

(** The nearest integer of a double, a tie going to the even one.  A double
    whose exponent is not negative is an integer; infinities and [nan] are
    returned as they are; the sign is kept when the result is zero. *)
Definition SFrint (x : spec_float) : spec_float :=
  match x with
  | S754_finite s m e =>
      if 0 <=? e then x
      else match Qrint (magnitude s m e) with
           | Zpos p => SFof_pos false p
           | Zneg p => SFof_pos true p
           | Z0 => S754_zero s
           end
  | _ => x
  end.

(** [numpy.rint] *)
Definition rint (a : double) : double := SF2Prim (SFrint (Prim2SF a)).

(** The conversion of a Python integer to a float. *)
Definition of_int (z : Z) : double := SF2Prim (binary_normalize prec emax z 0 false).

(** Elementwise operations, and a 2-d array against a row (broadcasting). *)
Definition row_op (op : double → double → double) (a b : list double) : list double :=
  zip_with op a b.
Definition array2_op (op : double → double → double) (a b : list (list double))
    : list (list double) :=
  zip_with (row_op op) a b.
Definition broadcast_op (op : double → double → double) (a : list (list double))
    (b : list double) : list (list double) :=
  map (λ ai, row_op op ai b) a.
Definition array2_map (g : double → double) (a : list (list double)) : list (list double) :=
  map (map g) a.

(** [a ** 2] on an array is [numpy.square]: the product [a * a]. *)
Definition square (a : double) : double := (a * a)%float.

(** [numpy.sum] of a contiguous run of [n] doubles, numpy's pairwise
    summation: below 8 entries they are added one after the other, starting
    from [-0.0]; up to 128 entries eight running sums take every eighth entry,
    are added in pairs, and the entries after the last full block of eight are
    added one after the other; a longer run is cut at a multiple of eight
    near its middle and the sums of the two parts are added. *)
Definition sum8 (r : list double) : double :=
  match r with
  | [r0; r1; r2; r3; r4; r5; r6; r7] =>
      (((r0 + r1) + (r2 + r3)) + ((r4 + r5) + (r6 + r7)))%float
  | _ => nan
  end.

Fixpoint blocks8 (n : nat) (a : list double) : list (list double) :=
  match n with
  | O => []
  | S n => take 8 a :: blocks8 n (drop 8 a)
  end.

Fixpoint pairwise_sum (fuel : nat) (a : list double) : double :=
  let n := length a in
  if (n <? 8)%nat then foldl add neg_zero a
  else if (n <=? 128)%nat then
    let k := (n / 8)%nat in
    let r := foldl (zip_with add) (take 8 a) (blocks8 (k - 1) (drop 8 a)) in
    foldl add (sum8 r) (drop (8 * k) a)
  else
    match fuel with
    | O => nan
    | S fuel =>
        let n2 := (n / 2 - (n / 2) mod 8)%nat in
        (pairwise_sum fuel (take n2 a) + pairwise_sum fuel (drop n2 a))%float
    end.

Definition np_sum (a : list double) : double := pairwise_sum (length a) a.

(** [numpy.sum(a)] of a contiguous 2-d array is the sum of its entries as one
    run, row after row; [numpy.sum(a, axis=1)] is the sum of each row (rows of
    fewer than 8 entries, as positions are, are added one entry after the
    other in whichever order numpy walks the array). *)
Definition sum_all (a : list (list double)) : double := np_sum (concat a).
Definition sum_axis1 (a : list (list double)) : list double := map np_sum a.

(** gr.py: [r - numpy.rint(r/L) * L], [gr_kernel] and [gr_kernel_square]. *)
Definition minimum_image (r : list (list double)) (L : list double) : list (list double) :=
  array2_op sub r (broadcast_op mul (array2_map rint (broadcast_op div r L)) L).

Definition gr_kernel (x : list (list double)) (y L : list double) : list double :=
  let r := broadcast_op sub x y in
  let r := minimum_image r L in
  map sqrt (sum_axis1 (array2_map square r)).

Definition gr_kernel_square (x : list (list double)) (y L : list double) : list double :=
  let r := broadcast_op sub x y in
  let r := minimum_image r L in
  sum_axis1 (array2_map square r).

(** alpha2.py: [non_gaussian_parameter]. *)
Section Alpha2.

(** [dr2 ** 2] on a numpy scalar is the [pow] of the C library, which is not
    always the correctly rounded square: it is left uninterpreted. *)
Variable power2 : double → double.

Definition non_gaussian_moments (x y : list (list double)) : double :=
  let dx2 := array2_map square (array2_op sub x y) in
  let dr2 := (sum_all dx2 / of_int (Z.of_nat (length x)))%float in
  let dr4 := (np_sum (map square (sum_axis1 dx2)) / of_int (Z.of_nat (length x)))%float in
  (of_int 3 * dr4 / (of_int 5 * power2 dr2) - of_int 1)%float.

Definition non_gaussian_parameter (store : addr → list (list double)) (x y : addr) : double :=
  if is_ x y then 0%float
  else non_gaussian_moments (store x) (store y).

End Alpha2.

(** The wrapped displacement of one component. *)
Definition wrap1 (d l : double) : double := (d - rint (d / l) * l)%float.





Definition example_arrays : addr → list (list double) := λ a,
  match a with
  | 0%nat => [[0x1.999999999999ap-4; 0x1.999999999999ap-3];
              [0x1.3333333333333p-2; 0x1.999999999999ap-2]]%float
  | _ => [[0; 0]; [0; 0]]%float
  end.

End Binary64.

(** *** Definitions for the statements on doubles *)




(** * Properties *)

(** ** Rationals *)

Lemma this_Q2Qc (q : Q) : (this (Q2Qc q) == q)%Q.
Proof. apply Qred_correct. Qed.

Lemma this_add (a b : Qc) : (this (a + b)%Qc == this a + this b)%Q.
Proof. apply this_Q2Qc. Qed.

Lemma this_mul (a b : Qc) : (this (a * b)%Qc == this a * this b)%Q.
Proof. apply this_Q2Qc. Qed.

Lemma this_opp (a : Qc) : (this (- a)%Qc == - this a)%Q.
Proof. apply this_Q2Qc. Qed.

Lemma this_div (a b : Qc) : (this (a / b)%Qc == this a / this b)%Q.
Proof.
  unfold Qcdiv, Qcinv. rewrite this_mul, this_Q2Qc. reflexivity.
Qed.

Lemma Qc_eqb_eq (a b : Qc) : Qc_eqb a b = true ↔ a = b.
Proof.
  unfold Qc_eqb. rewrite Qeq_bool_iff. split; [apply Qc_is_canon | by intros ->].
Qed.

Lemma Qc_leb_le (a b : Qc) : Qc_leb a b = true ↔ (this a <= this b)%Q.
Proof. apply Qle_bool_iff. Qed.

Lemma Qc_ltb_lt (a b : Qc) : Qc_ltb a b = true ↔ (this a < this b)%Q.
Proof.
  unfold Qc_ltb. rewrite negb_true_iff, <- not_true_iff_false, Qle_bool_iff.
  split; [apply Qnot_le_lt | apply Qlt_not_le].
Qed.

(** [Qrint q] is within one half of [q]. *)
Lemma Qrint_near (q : Q) :
  (- (1 # 2) <= q - inject_Z (Qrint q) <= 1 # 2)%Q.
Proof.
  pose proof (Qfloor_le q) as Hlo. pose proof (Qlt_floor q) as Hhi.
  rewrite inject_Z_plus in Hhi. change (inject_Z 1) with 1%Q in Hhi.
  unfold Qrint.
  destruct (Qcompare_spec (q - inject_Z (Qfloor q)) (1 # 2)) as [He|Hl|Hg].
  - destruct (Z.even (Qfloor q)).
    + lra.
    + rewrite inject_Z_plus. change (inject_Z 1) with 1%Q. lra.
  - lra.
  - rewrite inject_Z_plus. change (inject_Z 1) with 1%Q. lra.
Qed.


Lemma zip_with_map_r_self {A B C} (op : A → B → C) (g : A → B) (l : list A) :
  zip_with op l (map g l) = map (λ a, op a (g a)) l.
Proof. induction l; simpl; congruence. Qed.

Lemma wrap_row (ri L : row) :
  row_op fsub ri (row_op fmul (map rint (row_op fdiv ri L)) L) = zip_with wrap1 ri L.
Proof.
  unfold row_op. revert L. induction ri as [|d ri IH]; intros [|l L]; simpl; try done.
  by rewrite IH.
Qed.

Lemma minimum_image_rows (r : array2) (L : row) :
  minimum_image r L = map (λ ri, zip_with wrap1 ri L) r.
Proof.
  unfold minimum_image, array2_op, broadcast_op, array2_map.
  rewrite !map_map, zip_with_map_r_self.
  apply map_ext. intros ri. apply wrap_row.
Qed.

(** ** Sums *)

Lemma fadd_zero_l (a : float) : fadd fzero a = a.
Proof. destruct a; simpl; try done. by rewrite Qcplus_0_l. Qed.

Lemma zero_or_nan_sub_same (a : float) : zero_or_nan (fsub a a).
Proof.
  destruct a as [q| | |]; [left|by right..].
  unfold fsub, fzero. cbn [fneg fadd]. by rewrite Qcplus_opp_r.
Qed.

Lemma zero_or_nan_square (a : float) : zero_or_nan a → zero_or_nan (fsquare a).
Proof.
  intros [->| ->]; [left|by right].
  unfold fsquare, fzero. cbn [fmul]. f_equal; ring.
Qed.

Lemma zero_or_nan_add (a b : float) : zero_or_nan a → zero_or_nan b → zero_or_nan (fadd a b).
Proof.
  intros [->| ->] [->| ->]; [left|by right..].
  unfold fzero. cbn [fadd]. f_equal; ring.
Qed.

Lemma zero_or_nan_sum (l : list float) : Forall zero_or_nan l → zero_or_nan (fsum l).
Proof.
  induction 1; simpl; [by left|]. by apply zero_or_nan_add.
Qed.

Lemma zero_or_nan_mul_fin (q : Qc) (a : float) : zero_or_nan a → zero_or_nan (fmul (Fin q) a).
Proof.
  intros [->| ->]; [left|by right].
  unfold fzero. cbn [fmul]. f_equal; ring.
Qed.

Lemma zero_or_nan_div_fin (a : float) (q : Qc) : zero_or_nan a → zero_or_nan (fdiv a (Fin q)).
Proof.
  intros [->| ->]; [|by right]. unfold fzero. cbn [fdiv].
  destruct (Qc_eqb q 0) eqn:E; [by right|left].
  f_equal; unfold Qcdiv; ring.
Qed.

Lemma div_zero_or_nan (a b : float) : zero_or_nan a → zero_or_nan b → fdiv a b = NaN.
Proof. by intros [->| ->] [->| ->]. Qed.

Lemma sub_same_rows (a : array2) :
  Forall (Forall zero_or_nan) (array2_map fsquare (array2_op fsub a a)).
Proof.
  unfold array2_map, array2_op, row_op.
  induction a as [|ri a IH]; simpl; constructor; [|done].
  clear. induction ri as [|v ri IH]; simpl; constructor; [|done].
  apply zero_or_nan_square, zero_or_nan_sub_same.
Qed.

Lemma non_gaussian_moments_same (a : array2) : non_gaussian_moments a a = NaN.
Proof.
  unfold non_gaussian_moments.
  pose proof (sub_same_rows a) as H.
  set (dx2 := array2_map fsquare (array2_op fsub a a)) in *.
  assert (H2 : zero_or_nan (sum_all dx2)).
  { apply zero_or_nan_sum. unfold sum_all. by apply List.Forall_concat. }
  assert (H4 : zero_or_nan (fsum (map fsquare (sum_axis1 dx2)))).
  { apply zero_or_nan_sum. unfold sum_axis1. rewrite map_map.
    apply Forall_fmap. eapply Forall_impl; [exact H|].
    intros ri Hri. simpl. by apply zero_or_nan_square, zero_or_nan_sum. }
  rewrite (div_zero_or_nan (fmul _ _) (fmul _ _)); [done|..].
  - apply zero_or_nan_mul_fin, zero_or_nan_div_fin, H4.
  - apply zero_or_nan_mul_fin, zero_or_nan_square, zero_or_nan_div_fin, H2.
Qed.

Lemma finite_inv (a : float) : finite a → ∃ q, a = Fin q.
Proof. destruct a; try discriminate; eauto. Qed.

(** C5.  Called with one object as both arguments, [non_gaussian_parameter]
    returns [0.0] whatever the array holds, and it does so without computing the
    moments: computed on an array and itself they would give [nan]. *)
Theorem non_gaussian_parameter_zero_lag (store : addr → array2) (x : addr) :
  non_gaussian_parameter store x x = fzero
  ∧ non_gaussian_moments (store x) (store x) = NaN.
Proof.
  split; [|apply non_gaussian_moments_same].
  unfold non_gaussian_parameter, is_. by rewrite Nat.eqb_refl.
Qed.

(** C10.  The test of [non_gaussian_parameter] is on the identity of the
    objects: for two different objects holding equal arrays the result is not
    [0.0] but the [nan] of the division of zero by zero. *)
Theorem non_gaussian_parameter_equal_contents (store : addr → array2) (x y : addr) :
  x ≠ y → store x = store y →
  non_gaussian_parameter store x y = NaN.
Proof.
  intros Hxy Heq. unfold non_gaussian_parameter, is_.
  destruct (Nat.eqb_spec x y) as [->|_]; [done|].
  rewrite Heq. apply non_gaussian_moments_same.
Qed.

Lemma non_gaussian_parameter_equal_contents_witness :
  0%nat ≠ 2%nat
  ∧ example_arrays 0%nat = example_arrays 2%nat
  ∧ non_gaussian_parameter example_arrays 0%nat 2%nat = NaN.
Proof.
  split; [discriminate|]. split; [reflexivity|].
  apply non_gaussian_parameter_equal_contents; [discriminate|reflexivity].
Defined.

(** ** Histograms *)

Lemma histogram_counts (a bins : list float) :
  histogram a bins = if monotonic bins then Ok (bin_counts a bins) else Raise ValueError.
Proof. done. Qed.

Lemma count_if_app (p : float → bool) (a b : list float) :
  count_if p (a ++ b) = count_if p a + count_if p b.
Proof. unfold count_if. rewrite filter_app, length_app. lia. Qed.

Lemma length_cum_counts (a bins : list float) :
  length (cum_counts a bins) = length bins.
Proof.
  induction bins as [|e [|e' bins] IH]; [done..|].
  change (S (length (cum_counts a (e' :: bins))) = S (length (e' :: bins))).
  by rewrite IH.
Qed.

Lemma cum_counts_app (a b bins : list float) :
  cum_counts (a ++ b) bins = zip_with Z.add (cum_counts a bins) (cum_counts b bins).
Proof.
  induction bins as [|e [|e' bins] IH]; [done| |].
  - cbn [cum_counts zip_with]. by rewrite count_if_app.
  - change (count_if (λ v, fltb v e) (a ++ b) :: cum_counts (a ++ b) (e' :: bins)
            = (count_if (λ v, fltb v e) a + count_if (λ v, fltb v e) b)
              :: zip_with Z.add (cum_counts a (e' :: bins)) (cum_counts b (e' :: bins))).
    by rewrite IH, count_if_app.
Qed.

Lemma diff_zip_add (c c' : list Z) :
  length c = length c' →
  diff (zip_with Z.add c c') = zip_with Z.add (diff c) (diff c').
Proof.
  revert c'. induction c as [|c0 [|c1 c] IH]; intros [|d0 [|d1 c']] Hlen;
    try done.
  change (c1 + d1 - (c0 + d0) :: diff (zip_with Z.add (c1 :: c) (d1 :: c'))
          = (c1 - c0 + (d1 - d0)) :: zip_with Z.add (diff (c1 :: c)) (diff (d1 :: c'))).
  rewrite IH by (simpl in *; lia). f_equal. lia.
Qed.

Lemma bin_counts_app (a b bins : list float) :
  bin_counts (a ++ b) bins = hist_add (bin_counts a bins) (bin_counts b bins).
Proof.
  unfold bin_counts, hist_add. rewrite cum_counts_app, diff_zip_add; [done|].
  by rewrite !length_cum_counts.
Qed.

(** A loop that adds the histogram of a batch at each turn ends with the
    histogram of all the batches. *)
Lemma histogram_loop {A} (g : A → list float) (bins : list float) (l : list A)
    (a0 : list float) :
  monotonic bins = true →
  foldM (λ hist i, hist_tmp ← histogram (g i) bins; mret (hist_add hist hist_tmp))
        l (bin_counts a0 bins)
  = Ok (bin_counts (a0 ++ flat_map g l) bins).
Proof.
  intros Hm. revert a0. induction l as [|i l IH]; intros a0.
  - cbn [foldM flat_map]. by rewrite app_nil_r.
  - cbn [foldM flat_map]. rewrite histogram_counts, Hm.
    cbn. rewrite <- bin_counts_app, IH. by rewrite <- app_assoc.
Qed.

(** ** Ranges *)

Lemma py_range_1 (a b : nat) : py_range a b 1 = seq a (b - a).
Proof.
  unfold py_range. replace ((b - a + 1 - 1) / 1)%nat with (b - a)%nat
    by (rewrite Nat.div_1_r; lia).
  transitivity (Nat.add a <$> seq 0 (b - a)).
  - apply map_ext. intros k. lia.
  - rewrite fmap_add_seq. f_equal. lia.
Qed.

Lemma py_range_0 (m step : nat) :
  py_range 0 m step = map (λ k, k * step)%nat (seq 0 ((m + step - 1) / step)%nat).
Proof. unfold py_range. by rewrite Nat.sub_0_r. Qed.

(** The batches of a loop cut [0 .. m) in consecutive pieces. *)
Lemma batches_prefix (m bl j : nat) :
  flat_map (λ ib, py_range ib (min (ib + bl) m) 1) (map (λ k, k * bl)%nat (seq 0 j))
  = seq 0 (min (j * bl) m).
Proof.
  induction j as [|j IH]; [done|].
  rewrite seq_S, map_app, flat_map_app, IH. cbn [map flat_map Nat.add].
  rewrite app_nil_r, py_range_1.
  destruct (Nat.le_gt_cases (j * bl) m) as [Hle|Hgt].
  - rewrite (Nat.min_l (j * bl)) by done.
    replace (min (S j * bl) m) with (j * bl + (min (j * bl + bl) m - j * bl))%nat by lia.
    by rewrite seq_app.
  - rewrite (Nat.min_r (j * bl)) by lia.
    replace (min (j * bl + bl) m - j * bl)%nat with 0%nat by lia.
    rewrite app_nil_r. f_equal. lia.
Qed.

Lemma batches_cover (m bl : nat) :
  (1 ≤ bl)%nat →
  flat_map (λ ib, py_range ib (min (ib + bl) m) 1) (py_range 0 m bl) = seq 0 m.
Proof.
  intros Hbl. rewrite py_range_0, batches_prefix. f_equal.
  apply Nat.min_r.
  pose proof (Nat.div_mod_eq (m + bl - 1) bl) as Hd.
  pose proof (Nat.mod_upper_bound (m + bl - 1) bl ltac:(lia)) as Hm.
  nia.
Qed.

Lemma flat_map_flat_map {A B C} (g : B → list C) (h : A → list B) (l : list A) :
  flat_map (λ a, flat_map g (h a)) l = flat_map g (flat_map h l).
Proof.
  induction l as [|a l IH]; [done|]. cbn [flat_map].
  by rewrite flat_map_app, IH.
Qed.

Lemma pairs_newton_hist_bl_values (bl : nat) f (x y : array2) (L : row) (bins : list float) :
  (1 ≤ bl)%nat →
  pairs_newton_hist_bl bl f x y L bins = histogram (newton_values f x y L) bins.
Proof.
  intros Hbl. unfold pairs_newton_hist_bl, pairs_newton_loop.
  rewrite !histogram_counts. destruct (monotonic bins) eqn:Hm; [|done].
  change (foldM
            (λ hist ib, hist_tmp ← histogram (batch_values f x y L ib bl) bins;
                        mret (hist_add hist hist_tmp))
            (py_range 0 (length y - 1) bl) (bin_counts [] bins)
          = Ok (bin_counts (newton_values f x y L) bins)).
  rewrite (histogram_loop (λ ib, batch_values f x y L ib bl)) by done.
  cbn [app]. do 2 f_equal. unfold batch_values, newton_values.
  by rewrite flat_map_flat_map, batches_cover.
Qed.

Lemma Qc_of_Z_nonzero (z : Z) : z ≠ 0 → Qc_eqb (Qc_of_Z z) 0 = false.
Proof.
  intros Hz. apply not_true_iff_false. rewrite Qc_eqb_eq. intros H.
  apply (f_equal this) in H. change (inject_Z z = inject_Z 0) in H.
  injection H. lia.
Qed.

(** The batch size of the source. *)
Lemma batch_length_spec (y : array2) :
  y ≠ [] →
  batch_length y = Ok (Nat.max 1 (Z.to_nat (100000 / Z.of_nat (length y)))).
Proof.
  intros Hy. assert (Hn : (0 < length y)%nat) by (destruct y; [done|simpl; lia]).
  unfold batch_length, py_truediv, of_nat, of_Z. cbn [fmul fdiv].
  rewrite Qc_of_Z_nonzero by lia. cbn [mbind result_bind py_int mret result_ret].
  do 3 f_equal.
  set (q := (Qc_of_Z 100 * Qc_of_Z 1000 / Qc_of_Z (Z.of_nat (length y)))%Qc).
  assert (Hq : (this q == inject_Z 100000 / inject_Z (Z.of_nat (length y)))%Q).
  { unfold q. rewrite this_div, this_mul. reflexivity. }
  assert (Hfl : Qfloor q = 100000 / Z.of_nat (length y)).
  { rewrite Hq. symmetry. apply Zdiv_Qdiv. }
  assert (Hge : (0 <= this q)%Q).
  { rewrite Hq. apply Qle_shift_div_l.
    - change 0%Q with (inject_Z 0). rewrite <- Zlt_Qlt. lia.
    - by rewrite Qmult_0_l. }
  rewrite <- Hfl. unfold Qfloor. destruct (this q) as [n d].
  unfold Qle in Hge. cbn [Qnum Qden] in *.
  rewrite Z.quot_div_nonneg by lia. done.
Qed.

(** C3.  The histogram of [pairs_newton_hist] does not depend on the batch
    size: any two batch sizes of at least 1 give the same result (the same
    counts, or the same error when the edges are refused), and for a non-empty
    [y] this is the result with the batch size of the source. *)
Theorem batch_size_irrelevant f (x y : array2) (L : row) (bins : list float) (bl bl' : nat) :
  (1 ≤ bl)%nat → (1 ≤ bl')%nat →
  pairs_newton_hist_bl bl f x y L bins = pairs_newton_hist_bl bl' f x y L bins
  ∧ (y ≠ [] → pairs_newton_hist f x y L bins = pairs_newton_hist_bl bl f x y L bins).
Proof.
  intros Hbl Hbl'. split.
  - by rewrite !pairs_newton_hist_bl_values.
  - intros Hy. unfold pairs_newton_hist. rewrite batch_length_spec by done.
    change (pairs_newton_hist_bl (Nat.max 1 (Z.to_nat (100000 / Z.of_nat (length y))))
              f x y L bins = pairs_newton_hist_bl bl f x y L bins).
    rewrite !pairs_newton_hist_bl_values; [done|done|lia].
Qed.

Lemma batch_size_irrelevant_witness :
  (1 ≤ 1)%nat ∧ (1 ≤ 7)%nat
  ∧ pairs_newton_hist_bl 1 (gr_kernel sqrt_rational) example_positions example_positions
      [fone] [fzero; frac 1 20; fone]
    = pairs_newton_hist_bl 7 (gr_kernel sqrt_rational) example_positions example_positions
        [fone] [fzero; frac 1 20; fone].
Proof.
  split; [lia|]. split; [lia|].
  exact (proj1 (batch_size_irrelevant (gr_kernel sqrt_rational) example_positions example_positions
                  [fone] [fzero; frac 1 20; fone] 1 7 ltac:(lia) ltac:(lia))).
Defined.

Lemma filter_lt_seq (i a n : nat) :
  filter (λ j, (i < j)%nat) (seq a n) = seq (max a (i + 1)) (a + n - max a (i + 1)).
Proof.
  revert a. induction n as [|n IH]; intros a.
  - by replace (a + 0 - max a (i + 1))%nat with 0%nat by lia.
  - cbn [seq]. rewrite filter_cons, IH. case_decide.
    + replace (max a (i + 1)) with a by lia.
      replace (max (S a) (i + 1)) with (S a) by lia.
      by replace (a + S n - a)%nat with (S (S a + n - S a)) by lia.
    + replace (max (S a) (i + 1)) with (max a (i + 1)) by lia.
      f_equal. lia.
Qed.

Lemma filter_flat_map {A B} (P : B → Prop) `{∀ b, Decision (P b)} (h : A → list B) (l : list A) :
  filter P (flat_map h l) = flat_map (λ a, filter P (h a)) l.
Proof.
  induction l as [|a l IH]; [done|]. cbn [flat_map]. by rewrite filter_app, IH.
Qed.

Lemma filter_map_pair (i : nat) (l : list nat) :
  filter (λ p : nat * nat, (p.1 < p.2)%nat) (map (pair i) l)
  = map (pair i) (filter (λ j, (i < j)%nat) l).
Proof.
  induction l as [|j l IH]; [done|]. cbn [map]. rewrite !filter_cons, IH. cbn [fst snd].
  by case_decide.
Qed.

(** The pairs with [i < j], row by row. *)
Lemma lt_index_pairs (N : nat) :
  filter (λ p : nat * nat, (p.1 < p.2)%nat) (all_index_pairs N)
  = flat_map (λ i, map (pair i) (seq (i + 1) (N - (i + 1)))) (seq 0 N).
Proof.
  unfold all_index_pairs. rewrite filter_flat_map. apply flat_map_ext. intros i.
  rewrite filter_map_pair, filter_lt_seq. do 2 f_equal; lia.
Qed.

Lemma length_lt_index_pairs_prefix (N k : nat) :
  (k ≤ N)%nat →
  (2 * length (flat_map (λ i, map (pair i) (seq (i + 1) (N - (i + 1)))) (seq 0 k))
   = k * (2 * N - k - 1))%nat.
Proof.
  induction k as [|k IH]; intros Hk; [done|].
  rewrite seq_S, flat_map_app, length_app, Nat.mul_add_distr_l, IH by lia.
  cbn [flat_map Nat.add]. rewrite app_nil_r, length_map, length_seq. nia.
Qed.

Lemma length_lt_index_pairs (N : nat) :
  length (filter (λ p : nat * nat, (p.1 < p.2)%nat) (all_index_pairs N))
  = (N * (N - 1) / 2)%nat.
Proof.
  rewrite lt_index_pairs. apply Nat.div_unique_exact; [done|].
  rewrite length_lt_index_pairs_prefix by done. nia.
Qed.

Lemma drop_lookup_total (x : array2) (k : nat) :
  drop k x = map (λ j, x !!! j) (seq k (length x - k)).
Proof.
  apply list_eq. intros i. rewrite lookup_drop, list_lookup_fmap.
  destruct (decide (i < length x - k)%nat) as [Hi|Hi].
  - rewrite lookup_seq_lt by done. cbn. apply list_lookup_lookup_total_lt. lia.
  - rewrite lookup_seq_ge by lia. cbn. apply lookup_ge_None. lia.
Qed.

Lemma flat_map_map {A B C} (g : B → list C) (h : A → B) (l : list A) :
  flat_map g (map h l) = flat_map (λ a, g (h a)) l.
Proof. induction l as [|a l IH]; [done|]. cbn [map flat_map]. by rewrite IH. Qed.

(** On one set of particles the values of [pairs_newton_hist] are those of the
    brute-force computation, in the same order. *)
Lemma newton_values_brute_force f (x : array2) (L : row) :
  rowwise f → newton_values f x x L = brute_force_values f x L.
Proof.
  intros Hf. unfold newton_values, brute_force_values.
  rewrite lt_index_pairs, <- flat_map_flat_map.
  destruct (length x) as [|n] eqn:Hlen; [done|].
  replace (S n - 1)%nat with n by lia. rewrite seq_S, flat_map_app.
  cbn [flat_map Nat.add]. replace (S n - (n + 1))%nat with 0%nat by lia.
  cbn [seq map flat_map app]. rewrite app_nil_r.
  apply flat_map_ext. intros i.
  rewrite (proj1 (Hf _ _ _)), drop_lookup_total, !flat_map_map, Hlen. done.
Qed.

Lemma length_brute_force_values f (x : array2) (L : row) :
  rowwise f →
  length (brute_force_values f x L) = (length x * (length x - 1) / 2)%nat.
Proof.
  intros Hf. rewrite <- length_lt_index_pairs. unfold brute_force_values.
  induction (filter _ _) as [|p l IH]; [done|].
  cbn [flat_map]. rewrite length_app, IH.
  pose proof (proj2 (Hf [x !!! p.2] (x !!! p.1) L)) as H.
  apply Forall_inv in H. by rewrite H.
Qed.

(** ** The order of floats *)

Lemma Qc_ltb_ge (a b : Qc) : Qc_ltb a b = false ↔ (this b <= this a)%Q.
Proof.
  unfold Qc_ltb. rewrite negb_false_iff. apply Qle_bool_iff.
Qed.

Lemma Qc_leb_gt (a b : Qc) : Qc_leb a b = false ↔ (this b < this a)%Q.
Proof.
  unfold Qc_leb. rewrite <- not_true_iff_false, Qle_bool_iff.
  split; [apply Qnot_le_lt | apply Qlt_not_le].
Qed.

Ltac float_order :=
  repeat match goal with
         | a : float |- _ => destruct a
         end;
  cbn [fltb fleb andb] in *; try done;
  rewrite ?Qc_ltb_lt, ?Qc_leb_le, ?Qc_ltb_ge, ?Qc_leb_gt in *; lra.

Lemma fltb_asym (a b : float) : fltb a b = true → fltb b a = false.
Proof. intros H. float_order. Qed.

Lemma fltb_trans (a b c : float) : fltb a b = true → fltb b c = true → fltb a c = true.
Proof. intros H1 H2. float_order. Qed.

Lemma fltb_fleb_trans (v a b : float) : fltb v a = true → fltb a b = true → fleb v b = true.
Proof. intros H1 H2. float_order. Qed.

Lemma fltb_not_fleb (v a : float) : fltb v a = true → fleb a v = false.
Proof. intros H. float_order. Qed.

Lemma fleb_total (v a b : float) :
  fltb a b = true → fleb v b = true → fltb v a = false → fleb a v = true.
Proof. intros H1 H2 H3. float_order. Qed.

Lemma strictly_increasing_monotonic (bins : list float) :
  strictly_increasing bins = true → monotonic bins = true.
Proof.
  induction bins as [|e [|e' bins] IH]; [done..|].
  change ((fltb e e' && strictly_increasing (e' :: bins) = true)
          → negb (fltb e' e) && monotonic (e' :: bins) = true).
  intros [H1 H2]%andb_true_iff. by rewrite (fltb_asym _ _ H1), IH.
Qed.

Lemma strictly_increasing_last (lo e : float) (bins : list float) :
  strictly_increasing (lo :: e :: bins) = true →
  fltb lo (List.last (lo :: e :: bins) NaN) = true.
Proof.
  revert lo e. induction bins as [|e' bins IH]; intros lo e.
  - cbn. by rewrite andb_true_r.
  - change ((fltb lo e && strictly_increasing (e :: e' :: bins) = true)
            → fltb lo (List.last (e :: e' :: bins) NaN) = true).
    intros [H1 H2]%andb_true_iff. eapply fltb_trans; [exact H1|by apply IH].
Qed.

(** ** The total of a histogram *)

Lemma sum_diff (c0 : Z) (c : list Z) :
  foldr Z.add 0 (diff (c0 :: c)) = List.last (c0 :: c) 0 - c0.
Proof.
  revert c0. induction c as [|c1 c IH]; intros c0.
  - cbn. lia.
  - change (c1 - c0 + foldr Z.add 0 (diff (c1 :: c)) = List.last (c1 :: c) 0 - c0).
    rewrite IH. lia.
Qed.

Lemma last_cum_counts (a : list float) (e : float) (bins : list float) :
  List.last (cum_counts a (e :: bins)) 0
  = count_if (λ v, fleb v (List.last (e :: bins) NaN)) a.
Proof.
  revert e. induction bins as [|e' bins IH]; intros e; [done|].
  change (List.last (count_if (λ v, fltb v e) a :: cum_counts a (e' :: bins)) 0
          = count_if (λ v, fleb v (List.last (e' :: bins) NaN)) a).
  rewrite <- IH. destruct (cum_counts a (e' :: bins)) eqn:E; [|done].
  apply (f_equal length) in E. by rewrite length_cum_counts in E.
Qed.

Lemma count_in_range (lo hi : float) (a : list float) :
  fltb lo hi = true →
  count_if (λ v, fleb v hi) a
  = count_if (λ v, fltb v lo) a + count_if (λ v, fleb lo v && fleb v hi) a.
Proof.
  intros Hlh. unfold count_if. induction a as [|v a IH]; [done|].
  rewrite !filter_cons.
  destruct (fltb v lo) eqn:E1.
  - rewrite (fltb_fleb_trans _ _ _ E1 Hlh), (fltb_not_fleb _ _ E1).
    cbn [andb]. repeat case_decide; done || (cbn [length]; lia).
  - destruct (fleb v hi) eqn:E2.
    + rewrite (fleb_total _ _ _ Hlh E2 E1). cbn [andb].
      repeat case_decide; done || (cbn [length]; lia).
    + rewrite andb_false_r. repeat case_decide; done.
Qed.

Lemma count_if_false (a : list float) : count_if (λ _, false) a = 0.
Proof.
  unfold count_if. induction a as [|v a IH]; [done|].
  rewrite filter_cons. by case_decide.
Qed.

Lemma sum_bin_counts (a bins : list float) :
  strictly_increasing bins = true →
  foldr Z.add 0 (bin_counts a bins) = count_if (in_range bins) a.
Proof.
  intros Hs. unfold bin_counts.
  destruct bins as [|lo [|e bins]]; [by rewrite count_if_false..|].
  change (cum_counts a (lo :: e :: bins))
    with (count_if (λ v, fltb v lo) a :: cum_counts a (e :: bins)).
  rewrite sum_diff.
  change (List.last (count_if (λ v, fltb v lo) a :: cum_counts a (e :: bins)) 0)
    with (List.last (cum_counts a (lo :: e :: bins)) 0).
  rewrite last_cum_counts.
  rewrite (count_in_range lo) by (by apply strictly_increasing_last).
  unfold in_range. lia.
Qed.

Lemma pairs_newton_hist_values f (x y : array2) (L : row) (bins : list float) :
  y ≠ [] →
  pairs_newton_hist f x y L bins = histogram (newton_values f x y L) bins.
Proof.
  intros Hy. unfold pairs_newton_hist. rewrite batch_length_spec by done.
  apply (pairs_newton_hist_bl_values (Nat.max 1 _)). lia.
Qed.

Lemma map_rowwise (k : row → row → row → float) f :
  (∀ x y L, f x y L = map (λ xi, k xi y L) x) → rowwise f.
Proof.
  intros Hf x y L. split.
  - rewrite Hf. induction x as [|xi x IH]; [done|].
    cbn [map flat_map]. by rewrite Hf, <- IH.
  - apply Forall_forall. intros xi _. by rewrite Hf.
Qed.

Lemma gr_kernel_rowwise (sqrt : float → float) : rowwise (gr_kernel sqrt).
Proof.
  apply (map_rowwise (λ xi y L, sqrt (fsum (map fsquare (zip_with wrap1 (row_op fsub xi y) L))))).
  intros x y L. unfold gr_kernel. rewrite minimum_image_rows.
  unfold sum_axis1, array2_map, broadcast_op. by rewrite !map_map.
Qed.

Lemma gr_kernel_square_rowwise : rowwise gr_kernel_square.
Proof.
  apply (map_rowwise (λ xi y L, fsum (map fsquare (zip_with wrap1 (row_op fsub xi y) L)))).
  intros x y L. unfold gr_kernel_square. rewrite minimum_image_rows.
  unfold sum_axis1, array2_map, broadcast_op. by rewrite !map_map.
Qed.

(** C2, amended.  For every non-empty set [x] of particles, every cell and
    every strictly increasing sequence of edges, and a kernel that works row by
    row (as [gr_kernel] and [gr_kernel_square] do), [pairs_newton_hist] on [x]
    and [x] returns, bin for bin, the histogram of the brute-force values over
    the pairs [i < j]; these are [N * (N - 1) / 2] values, and the counts add up
    to the number of them that fall within the edges. *)
Theorem pairs_newton_hist_brute_force f (x : array2) (L : row) (bins : list float) :
  rowwise f → x ≠ [] → strictly_increasing bins = true →
  ∃ hist : list Z,
    pairs_newton_hist f x x L bins = Ok hist
    ∧ histogram (brute_force_values f x L) bins = Ok hist
    ∧ length (brute_force_values f x L) = (length x * (length x - 1) / 2)%nat
    ∧ foldr Z.add 0 hist = count_if (in_range bins) (brute_force_values f x L).
Proof.
  intros Hf Hx Hs. exists (bin_counts (brute_force_values f x L) bins).
  rewrite pairs_newton_hist_values, newton_values_brute_force by done.
  rewrite histogram_counts, strictly_increasing_monotonic by done.
  repeat split.
  - by apply length_brute_force_values.
  - by apply sum_bin_counts.
Qed.

Lemma pairs_newton_hist_brute_force_witness :
  rowwise (gr_kernel sqrt_rational)
  ∧ example_positions ≠ []
  ∧ strictly_increasing [fzero; frac 1 20; fone] = true
  ∧ ∃ hist : list Z,
      pairs_newton_hist (gr_kernel sqrt_rational) example_positions example_positions
        [fone] [fzero; frac 1 20; fone] = Ok hist
      ∧ histogram (brute_force_values (gr_kernel sqrt_rational) example_positions [fone])
          [fzero; frac 1 20; fone] = Ok hist
      ∧ length (brute_force_values (gr_kernel sqrt_rational) example_positions [fone])
        = (length example_positions * (length example_positions - 1) / 2)%nat
      ∧ foldr Z.add 0 hist
        = count_if (in_range [fzero; frac 1 20; fone])
            (brute_force_values (gr_kernel sqrt_rational) example_positions [fone]).
Proof.
  split; [exact (gr_kernel_rowwise sqrt_rational)|]. split; [discriminate|].
  split; [reflexivity|].
  apply pairs_newton_hist_brute_force;
    [exact (gr_kernel_rowwise sqrt_rational)|discriminate|reflexivity].
Defined.

(** C2 as stated fails for the empty set of particles: the batch size divides
    by the number of particles, and the brute-force histogram is all zeros. *)
Lemma pairs_newton_hist_empty_raises :
  pairs_newton_hist (gr_kernel sqrt_rational) [] [] [fone] [fzero; fone] = Raise ZeroDivisionError
  ∧ histogram (brute_force_values (gr_kernel sqrt_rational) [] [fone]) [fzero; fone] = Ok [0]
  ∧ pairs_newton_hist (gr_kernel sqrt_rational) [] [] [fone] [fzero; fone]
    ≠ histogram (brute_force_values (gr_kernel sqrt_rational) [] [fone]) [fzero; fone].
Proof. split; [reflexivity|]. split; [reflexivity|]. discriminate. Qed.

Lemma pairs_hist_values f (x y : array2) (L : row) (bins : list float) :
  pairs_hist f x y L bins = histogram (cross_values f x y L) bins.
Proof.
  unfold pairs_hist. rewrite !histogram_counts.
  destruct (monotonic bins) eqn:Hm; [|done].
  change (foldM
            (λ hist i, hist_tmp ← histogram (f x (y !!! i) L) bins;
                       mret (hist_add hist hist_tmp))
            (py_range 0 (length y) 1) (bin_counts [] bins)
          = Ok (bin_counts (cross_values f x y L) bins)).
  rewrite (histogram_loop (λ i, f x (y !!! i) L)) by done.
  by rewrite py_range_1, Nat.sub_0_r.
Qed.

Lemma py_index_lt {A} `{Inhabited A} (l : list A) (i : nat) :
  (i < length l)%nat → py_index l i = Ok (l !!! i).
Proof.
  intros Hi. unfold py_index. by rewrite (list_lookup_lookup_total_lt l i Hi).
Qed.

Lemma length_zero_nil {A} (l : list A) : (length l =? 0)%nat = false → l ≠ [].
Proof. by destruct l. Qed.

Lemma last_cons_default {A} (a d : A) (l : list A) :
  List.last (a :: l) d = List.last l a.
Proof.
  revert a d. induction l as [|b l IH]; intros a d; [done|].
  change (List.last (b :: l) d = List.last (b :: l) a). by rewrite !IH.
Qed.

Section FrameLoop.

Variable sqrt : float → float.
Variable store : addr → list array2.
Variable self : RadialDistributionFunction.
Hypothesis wf : well_formed store self.

Lemma frame_pair_hist_values (i : nat) :
  degenerate store self i = false →
  frame_pair_hist sqrt self (store (_pos_0 self) !!! i) (store (_pos_1 self) !!! i)
                  (cells (rdf_trajectory self) !!! i) (grid self)
  = Ok (frame_histogram sqrt store self i).
Proof.
  intros [_ H1]%orb_false_iff. apply length_zero_nil in H1.
  unfold frame_pair_hist, frame_histogram, frame_values.
  destruct (is_ _ _).
  - by rewrite pairs_newton_hist_values, histogram_counts, (wf_grid _ _ wf).
  - by rewrite pairs_hist_values, histogram_counts, (wf_grid _ _ wf).
Qed.

Lemma frame_step_spec (st : row * list (list Z)) (i : nat) :
  (i < length (cells (rdf_trajectory self)))%nat →
  frame_step sqrt store self (grid self) st i
  = Ok (cells (rdf_trajectory self) !!! i,
        if degenerate store self i then st.2
        else st.2 ++ [frame_histogram sqrt store self i]).
Proof.
  intros Hi. unfold frame_step.
  rewrite !py_index_lt by (by rewrite ?(wf_pos_0 _ _ wf), ?(wf_pos_1 _ _ wf)).
  cbn [mbind result_bind]. unfold degenerate.
  destruct (length (store (_pos_0 self) !!! i) =? 0)%nat eqn:E0; [done|].
  cbn [mbind result_bind orb].
  destruct (length (store (_pos_1 self) !!! i) =? 0)%nat eqn:E1; [done|].
  rewrite frame_pair_hist_values; [done|].
  unfold degenerate. by rewrite E0, E1.
Qed.

Lemma frame_steps_spec (frames : list nat) (st : row * list (list Z)) :
  Forall (λ i, (i < length (cells (rdf_trajectory self)))%nat) frames →
  foldM (frame_step sqrt store self (grid self)) frames st
  = Ok (List.last (map (λ i, cells (rdf_trajectory self) !!! i) frames) st.1,
        st.2 ++ map (frame_histogram sqrt store self)
                    (filter (λ i, degenerate store self i = false) frames)).
Proof.
  intros Hf. revert st. induction Hf as [|i frames Hi Hf IH]; intros st.
  - cbn. rewrite app_nil_r. by destruct st.
  - cbn [foldM]. rewrite frame_step_spec by done. cbn [mbind result_bind].
    rewrite IH, filter_cons. cbn [fst snd map]. rewrite last_cons_default.
    do 2 f_equal.
    destruct (degenerate store self i); case_decide; try done.
    cbn [map]. by rewrite <- app_assoc.
Qed.

Lemma sampled_lt :
  Forall (λ i, (i < length (cells (rdf_trajectory self)))%nat) (sampled self).
Proof.
  pose proof (wf_skip _ _ wf) as Hs.
  unfold sampled. rewrite py_range_0. apply Forall_forall. intros i Hi.
  apply list_elem_of_fmap in Hi as (k & -> & Hk). apply elem_of_seq in Hk.
  set (m := length (cells (rdf_trajectory self))) in *.
  pose proof (Nat.div_mod_eq (m + skip self - 1) (skip self)) as Hd.
  pose proof (Nat.mod_upper_bound (m + skip self - 1) (skip self) Hs) as Hm.
  nia.
Qed.

Lemma frame_loop_spec :
  frame_loop sqrt store self (grid self)
  = Ok (List.last (map (λ i, cells (rdf_trajectory self) !!! i) (sampled self)) (side self),
        map (frame_histogram sqrt store self) (processed_frames store self)).
Proof.
  unfold frame_loop, sampled_frames.
  destruct (Nat.eqb_spec (skip self) 0) as [E|_]; [by destruct (wf_skip _ _ wf)|].
  cbn [mbind result_bind]. fold (sampled self).
  by rewrite frame_steps_spec by apply sampled_lt.
Qed.

End FrameLoop.

Lemma particle_numbers_spec (store : addr → list array2) (self : RadialDistributionFunction) :
  well_formed store self →
  particle_numbers (rdf_trajectory self) (store (_pos_0 self)) (store (_pos_1 self))
  = Ok (particle_number (rdf_trajectory self) (store (_pos_0 self)),
        particle_number (rdf_trajectory self) (store (_pos_1 self))).
Proof.
  intros wf. unfold particle_numbers, particle_number.
  destruct (grandcanonical (rdf_trajectory self)) eqn:E; [done|].
  pose proof (wf_first _ _ wf E) as Hne.
  assert (0 < length (cells (rdf_trajectory self)))%nat
    by (destruct (cells (rdf_trajectory self)); [done|simpl; lia]).
  by rewrite !py_index_lt by (by rewrite ?(wf_pos_0 _ _ wf), ?(wf_pos_1 _ _ wf)).
Qed.

(** [_compute] on a well-formed object. *)
Lemma compute_spec (sqrt : float → float) (store : addr → list array2)
    (self : RadialDistributionFunction) :
  well_formed store self →
  _compute sqrt store self
  = let tr := rdf_trajectory self in
    let N_0 := particle_number tr (store (_pos_0 self)) in
    let N_1 := particle_number tr (store (_pos_1 self)) in
    let side' := List.last (map (λ i, cells tr !!! i) (sampled self)) (side self) in
    let gr_all := map (frame_histogram sqrt store self) (processed_frames store self) in
    gr ← average_axis0 gr_all;
    Ok {| rdf_trajectory := tr;
          skip := skip self;
          side := side';
          grid := bin_centers (grid self);
          value := ndarray_div gr
                     (normalization (is_ (_pos_0 self) (_pos_1 self))
                        (fdiv N_1 (fprod side')) (shell_volumes (grid self)) N_0);
          _pos_0 := _pos_0 self;
          _pos_1 := _pos_1 self |}.
Proof.
  intros wf. unfold _compute.
  rewrite particle_numbers_spec by done. cbn [mbind result_bind].
  unfold histogram at 1. rewrite (wf_grid _ _ wf). cbn [mbind result_bind].
  by rewrite frame_loop_spec.
Qed.

(** ** Lookups in the arrays of the normalization *)

Lemma length_diff (c : list Z) : length (diff c) = (length c - 1)%nat.
Proof.
  induction c as [|c0 [|c1 c] IH]; [done..|].
  change (S (length (diff (c1 :: c))) = (length (c0 :: c1 :: c) - 1)%nat).
  rewrite IH. simpl. lia.
Qed.

Lemma length_bin_counts (a bins : list float) :
  length (bin_counts a bins) = (length bins - 1)%nat.
Proof. unfold bin_counts. by rewrite length_diff, length_cum_counts. Qed.

Lemma lookup_removelast {A} (l : list A) (k : nat) :
  (k + 1 < length l)%nat → removelast l !! k = l !! k.
Proof.
  intros Hk. rewrite removelast_firstn_len. apply lookup_take_lt. lia.
Qed.

Lemma lookup_shell_volumes (r : list float) (k : nat) (lo hi : float) :
  r !! k = Some lo → r !! (k + 1)%nat = Some hi →
  shell_volumes r !! k = Some (shell_volume lo hi).
Proof.
  intros Hlo Hhi. unfold shell_volumes, shell_volume.
  rewrite list_lookup_fmap.
  assert (Hz : zip_with (λ hi lo, fsub (fcube hi) (fcube lo)) (tail r) (removelast r) !! k
               = Some (fsub (fcube hi) (fcube lo))).
  { apply lookup_zip_with_Some. exists hi, lo. split; [done|]. split.
    - rewrite lookup_tail. by replace (S k) with (k + 1)%nat by lia.
    - rewrite lookup_removelast; [done|]. apply lookup_lt_Some in Hhi. lia. }
  by rewrite Hz.
Qed.

Lemma fmul_one_r (a : float) : fmul a fone = a.
Proof.
  destruct a as [q| | |]; try done.
  unfold fone. cbn [fmul]. by rewrite Qcmult_1_r.
Qed.

Lemma lookup_normalization (self_pair : bool) (rho N_0 : float) (vol : row) (k : nat) (v : float) :
  vol !! k = Some v →
  normalization self_pair rho vol N_0 !! k
  = Some (fmul (fmul (fmul rho v) N_0) (if self_pair then fhalf else fone)).
Proof.
  intros Hv. unfold normalization. destruct self_pair; rewrite list_lookup_fmap, Hv; [done|].
  cbn. by rewrite fmul_one_r.
Qed.

Lemma lookup_foldl_hist_add (n k : nat) (rest : list (list Z)) (h : list Z) :
  length h = n → Forall (λ h, length h = n) rest → (k < n)%nat →
  foldl hist_add h rest !! k
  = Some (h !!! k + foldr Z.add 0 (map (λ h, h !!! k) rest)).
Proof.
  intros Hh Hrest Hk. revert h Hh. induction Hrest as [|h1 rest H1 Hrest IH]; intros h Hh.
  - cbn. rewrite Z.add_0_r. apply list_lookup_lookup_total_lt. lia.
  - cbn [foldl map foldr]. rewrite IH.
    + f_equal. unfold hist_add.
      assert (Hz : zip_with Z.add h h1 !! k = Some (h !!! k + h1 !!! k)).
      { apply lookup_zip_with_Some. exists (h !!! k), (h1 !!! k).
        split; [done|]. split; apply list_lookup_lookup_total_lt; lia. }
      apply list_lookup_total_correct in Hz. rewrite Hz. lia.
    + unfold hist_add. rewrite length_zip_with. lia.
Qed.

Lemma lookup_mean_axis0 (n k : nat) (gr_all : list (list Z)) (norm : row) (d : float) :
  Forall (λ h, length h = n) gr_all → (k < n)%nat → norm !! k = Some d →
  ndarray_div (mean_axis0 gr_all) norm !! k = Some (fdiv (mean_histogram gr_all k) d).
Proof.
  intros Hall Hk Hd. destruct gr_all as [|h rest].
  - cbn [mean_axis0 ndarray_div]. by rewrite list_lookup_fmap, Hd.
  - cbn [mean_axis0 ndarray_div column_sums].
    apply lookup_zip_with_Some. eexists _, d. split; [done|]. split; [|done].
    rewrite list_lookup_fmap.
    apply Forall_cons in Hall as [Hh Hrest].
    by rewrite (lookup_foldl_hist_add n k rest h).
Qed.

(** ** The shape of the arrays of [_compute] *)

Lemma length_removelast {A} (l : list A) : length (removelast l) = (length l - 1)%nat.
Proof. rewrite removelast_firstn_len, length_take. lia. Qed.

Lemma length_tail' {A} (l : list A) : length (tail l) = (length l - 1)%nat.
Proof. destruct l; simpl; lia. Qed.

Lemma length_shell_volumes (r : list float) :
  length (shell_volumes r) = (length r - 1)%nat.
Proof.
  unfold shell_volumes. rewrite length_map, length_zip_with, length_tail', length_removelast. lia.
Qed.

Lemma length_bin_centers (r : list float) :
  length (bin_centers r) = (length r - 1)%nat.
Proof.
  unfold bin_centers. rewrite length_zip_with, length_tail', length_removelast. lia.
Qed.

Lemma length_normalization (self_pair : bool) (rho N_0 : float) (vol : row) :
  length (normalization self_pair rho vol N_0) = length vol.
Proof. unfold normalization. destruct self_pair; by rewrite length_map. Qed.

(** ** The error of [numpy.average] *)

Lemma length_foldl_hist_add (n : nat) (rest : list (list Z)) (h : list Z) :
  length h = n → Forall (λ h, length h = n) rest → length (foldl hist_add h rest) = n.
Proof.
  intros Hh Hrest. revert h Hh. induction Hrest as [|h1 rest H1 _ IH]; intros h Hh; [done|].
  cbn [foldl]. apply IH. unfold hist_add. rewrite length_zip_with. lia.
Qed.

Lemma size_mean_axis0 (n : nat) (gr_all : list (list Z)) :
  Forall (λ h, length h = n) gr_all → gr_all ≠ [] → ndarray_size (mean_axis0 gr_all) = n.
Proof.
  intros Hall Hne. destruct gr_all as [|h rest]; [done|].
  apply Forall_cons in Hall as [Hh Hrest].
  cbn [mean_axis0 ndarray_size column_sums].
  by rewrite length_map, (length_foldl_hist_add n).
Qed.

Lemma average_axis0_nil : average_axis0 [] = Ok (Scalar NaN).
Proof. reflexivity. Qed.

Lemma average_axis0_bins (n : nat) (gr_all : list (list Z)) :
  Forall (λ h, length h = n) gr_all → (0 < n)%nat →
  average_axis0 gr_all = Ok (mean_axis0 gr_all).
Proof.
  intros Hall Hn. destruct gr_all as [|h rest]; [done|].
  unfold average_axis0. rewrite (size_mean_axis0 n) by done.
  by destruct n; [lia|].
Qed.

Lemma average_axis0_no_bins (gr_all : list (list Z)) :
  Forall (λ h, length h = 0%nat) gr_all → gr_all ≠ [] →
  average_axis0 gr_all = Raise ZeroDivisionError.
Proof.
  intros Hall Hne. unfold average_axis0. by rewrite (size_mean_axis0 0).
Qed.

Lemma length_frame_histograms (sqrt : float → float) (store : addr → list array2)
    (self : RadialDistributionFunction) (frames : list nat) :
  Forall (λ h, length h = (length (grid self) - 1)%nat)
         (map (frame_histogram sqrt store self) frames).
Proof. apply Forall_fmap, Forall_forall. intros i _. apply length_bin_counts. Qed.

(** [_compute] on a well-formed object whose histograms have a bin. *)
Lemma compute_values (sqrt : float → float) (store : addr → list array2)
    (self : RadialDistributionFunction) :
  well_formed store self → (2 ≤ length (grid self))%nat →
  _compute sqrt store self
  = Ok {| rdf_trajectory := rdf_trajectory self;
          skip := skip self;
          side := last_side self;
          grid := bin_centers (grid self);
          value := ndarray_div
                     (mean_axis0 (map (frame_histogram sqrt store self)
                                      (processed_frames store self)))
                     (normalization_of store self);
          _pos_0 := _pos_0 self;
          _pos_1 := _pos_1 self |}.
Proof.
  intros wf Hg. rewrite compute_spec by done. cbn zeta.
  rewrite (average_axis0_bins (length (grid self) - 1));
    [done|apply length_frame_histograms|lia].
Qed.

(** C8.  On a well-formed object, the turn of the loop for a frame in which one
    of the two sets has no particle raises nothing and leaves [gr_all] as it is,
    and the loop ends with the histograms of the sampled frames that are not
    degenerate, and of no other. *)
Theorem degenerate_frame_skipped (sqrt : float → float) (store : addr → list array2)
    (self : RadialDistributionFunction) :
  well_formed store self →
  (∀ (st : row * list (list Z)) (i : nat),
     (i < length (cells (rdf_trajectory self)))%nat →
     degenerate store self i = true →
     frame_step sqrt store self (grid self) st i
     = Ok (cells (rdf_trajectory self) !!! i, st.2))
  ∧ (∃ side' : row,
       frame_loop sqrt store self (grid self)
       = Ok (side', map (frame_histogram sqrt store self)
                        (filter (λ i, degenerate store self i = false) (sampled self)))).
Proof.
  intros wf. split.
  - intros st i Hi Hd. rewrite frame_step_spec by done. by rewrite Hd.
  - eexists. by apply frame_loop_spec.
Qed.

Lemma degenerate_frame_skipped_witness :
  well_formed example_store example_rdf
  ∧ ∃ side' : row,
      frame_loop sqrt_rational example_store example_rdf (grid example_rdf)
      = Ok (side', map (frame_histogram sqrt_rational example_store example_rdf)
                       (filter (λ i, degenerate example_store example_rdf i = false)
                               (sampled example_rdf))).
Proof.
  assert (wf : well_formed example_store example_rdf) by (split; done).
  split; [exact wf|].
  exact (proj2 (degenerate_frame_skipped sqrt_rational example_store example_rdf wf)).
Defined.

(** C1, amended.  On a well-formed object with at least two edges [_compute]
    returns, and the value of bin [k] is [mean[k] / (rho * vol[k] * N_0 * c)], where [mean] is the mean of
    the histograms of the processed frames, [vol[k] = 4 pi / 3 * (r[k+1]^3 -
    r[k]^3)], [c] is 0.5 when the two sets of positions are one object and 1
    otherwise, [N_0] and [N_1] are the means of the numbers of particles over
    all the frames of a grand-canonical trajectory and the numbers of particles
    of the first frame otherwise, and [rho] is [N_1] divided by the volume of
    the cell of the last sampled frame. *)
Theorem compute_normalization (sqrt : float → float) (store : addr → list array2)
    (self : RadialDistributionFunction) :
  well_formed store self → (2 ≤ length (grid self))%nat →
  ∃ self' : RadialDistributionFunction,
    _compute sqrt store self = Ok self'
    ∧ side self'
      = List.last (map (λ i, cells (rdf_trajectory self) !!! i) (sampled self)) (side self)
    ∧ ∀ (k : nat) (lo hi : float),
        grid self !! k = Some lo → grid self !! (k + 1)%nat = Some hi →
        let N_0 := particle_number (rdf_trajectory self) (store (_pos_0 self)) in
        let N_1 := particle_number (rdf_trajectory self) (store (_pos_1 self)) in
        let rho := fdiv N_1 (fprod (side self')) in
        let gr_all := map (frame_histogram sqrt store self) (processed_frames store self) in
        value self' !! k
        = Some (fdiv (mean_histogram gr_all k)
                     (fmul (fmul (fmul rho (shell_volume lo hi)) N_0)
                           (if is_ (_pos_0 self) (_pos_1 self) then fhalf else fone))).
Proof.
  intros wf Hg. eexists. split; [by apply compute_values|]. cbn [side value].
  split; [done|]. intros k lo hi Hlo Hhi.
  apply (lookup_mean_axis0 (length (grid self) - 1)).
  - apply length_frame_histograms.
  - apply lookup_lt_Some in Hhi. lia.
  - apply lookup_normalization. by apply lookup_shell_volumes.
Qed.

Lemma compute_normalization_witness :
  well_formed example_store example_rdf
  ∧ (2 ≤ length (grid example_rdf))%nat
  ∧ ∃ self' : RadialDistributionFunction,
      _compute sqrt_rational example_store example_rdf = Ok self'
      ∧ side self' = [fone].
Proof.
  assert (wf : well_formed example_store example_rdf) by (split; done).
  assert (Hg : (2 ≤ length (grid example_rdf))%nat) by (cbn; lia).
  split; [exact wf|]. split; [exact Hg|].
  destruct (compute_normalization sqrt_rational example_store example_rdf wf Hg)
    as (self' & Hc & Hs & _).
  exists self'. split; [exact Hc|]. rewrite Hs. reflexivity.
Defined.

Lemma fdiv_of_Z_exact (a b : Z) : b ≠ 0 → fdiv (of_Z (a * b)) (of_Z b) = of_Z a.
Proof.
  intros Hb. unfold of_Z. cbn [fdiv]. rewrite Qc_of_Z_nonzero by done.
  f_equal. apply Qc_is_canon. rewrite this_div. cbn [this Qc_of_Z].
  rewrite inject_Z_mult. field.
  intros H. unfold Qeq in H. cbn in H. lia.
Qed.

Lemma fdiv_of_Z_one (a : Z) : fdiv (of_Z a) (of_Z 1) = of_Z a.
Proof.
  transitivity (fdiv (of_Z (a * 1)) (of_Z 1)); [by rewrite Z.mul_1_r|].
  by apply fdiv_of_Z_exact.
Qed.

Lemma fdiv_of_Z_two (a : Z) : fdiv (of_Z (a + a)) (of_Z 2) = of_Z a.
Proof.
  transitivity (fdiv (of_Z (a * 2)) (of_Z 2)); [do 2 f_equal; lia|].
  by apply fdiv_of_Z_exact.
Qed.

Lemma mean_axis0_one (h : list Z) : mean_axis0 [h] = Vector (map of_Z h).
Proof.
  cbn [mean_axis0 column_sums foldl length]. f_equal. apply map_ext. intros s.
  apply fdiv_of_Z_one.
Qed.

Lemma mean_axis0_two (h : list Z) : mean_axis0 [h; h] = Vector (map of_Z h).
Proof.
  cbn [mean_axis0 column_sums foldl length]. f_equal.
  unfold hist_add. induction h as [|s h IH]; [done|].
  cbn [zip_with map]. rewrite IH. f_equal. apply fdiv_of_Z_two.
Qed.

Lemma float_eqb_eq (a b : float) : float_eqb a b = true ↔ a = b.
Proof.
  destruct a, b; cbn; try (split; congruence).
  rewrite Qc_eqb_eq. split; congruence.
Qed.

Lemma float_eqb_neq (a b : float) : float_eqb a b = false → a ≠ b.
Proof. intros H E. apply float_eqb_eq in E. congruence. Qed.

(** C7.  On a well-formed object with at least two edges the value of each
    bin is the arithmetic mean over the processed frames of the counts of the
    bin (their sum divided by the number of processed frames), divided by the
    normalization of the bin.  Consequently, when exactly two frames are
    processed and their histograms are the same [h], the values are [h]
    divided by the normalization, bin by bin, and they are the values
    [_compute] returns on any object of the same edges and the same inputs of
    the normalization whose only processed frame has the histogram [h]. *)
Theorem histograms_averaged (sqrt : float → float) (store : addr → list array2)
    (self : RadialDistributionFunction) :
  well_formed store self → (2 ≤ length (grid self))%nat →
  ∃ both : RadialDistributionFunction,
    _compute sqrt store self = Ok both
    ∧ (∀ (k : nat) (d : float),
         normalization_of store self !! k = Some d →
         let gr_all := map (frame_histogram sqrt store self) (processed_frames store self) in
         value both !! k
         = Some (fdiv (fdiv (of_Z (foldr Z.add 0 (map (λ h, h !!! k) gr_all)))
                            (of_nat (length gr_all)))
                      d))
    ∧ (∀ (store1 : addr → list array2) (self1 : RadialDistributionFunction)
         (i j i1 : nat) (h : list Z),
         well_formed store1 self1 →
         grid self1 = grid self →
         normalization_inputs store1 self1 = normalization_inputs store self →
         processed_frames store self = [i; j] →
         processed_frames store1 self1 = [i1] →
         frame_histogram sqrt store self i = h →
         frame_histogram sqrt store self j = h →
         frame_histogram sqrt store1 self1 i1 = h →
         ∃ single : RadialDistributionFunction,
           _compute sqrt store1 self1 = Ok single
           ∧ value both = value single
           ∧ value both = zip_with fdiv (map of_Z h) (normalization_of store self)).
Proof.
  intros wf Hg. eexists. split; [by apply compute_values|]. cbn [value]. split.
  - intros k d Hd. apply (lookup_mean_axis0 (length (grid self) - 1)); [| |done].
    + apply length_frame_histograms.
    + apply lookup_lt_Some in Hd. unfold normalization_of in Hd.
      by rewrite length_normalization, length_shell_volumes in Hd.
  - intros store1 self1 i j i1 h wf1 Hgrid Hin Hp Hp1 Hi Hj Hi1.
    eexists. split; [apply compute_values; [done|by rewrite Hgrid]|]. cbn [value].
    assert (Hnorm : normalization_of store1 self1 = normalization_of store self).
    { unfold normalization_of. unfold normalization_inputs in Hin.
      injection Hin as -> -> -> ->. by rewrite Hgrid. }
    rewrite Hp, Hp1, Hnorm. cbn [map]. rewrite Hi, Hj, Hi1.
    by rewrite mean_axis0_one, mean_axis0_two.
Qed.

Lemma histograms_averaged_witness :
  ∃ both single : RadialDistributionFunction,
    _compute sqrt_rational twice_store example_rdf = Ok both
    ∧ _compute sqrt_rational (only_frame 0 twice_store) (only_frame_self 0 example_rdf)
      = Ok single
    ∧ value both = value single
    ∧ value both
      = zip_with fdiv (map of_Z [1; 2]) (normalization_of twice_store example_rdf).
Proof.
  assert (wf : well_formed twice_store example_rdf) by (split; done).
  assert (Hg : (2 ≤ length (grid example_rdf))%nat) by (cbn; lia).
  assert (Hin : normalization_inputs (only_frame 0 twice_store) (only_frame_self 0 example_rdf)
                = normalization_inputs twice_store example_rdf).
  { unfold normalization_inputs.
    apply (f_equal2 pair); [apply (f_equal2 pair); [apply (f_equal2 pair); [reflexivity|]|]|];
      apply float_eqb_eq; vm_compute; reflexivity. }
  destruct (histograms_averaged sqrt_rational twice_store example_rdf wf Hg)
    as (both & Hc & _ & Hsame).
  destruct (Hsame (only_frame 0 twice_store) (only_frame_self 0 example_rdf)
              0%nat 1%nat 0%nat [1; 2])
    as (single & Hc1 & Hv & Hh);
    [split; done|reflexivity|exact Hin|reflexivity|reflexivity
    |vm_compute; reflexivity|vm_compute; reflexivity|vm_compute; reflexivity|].
  exists both, single. repeat split; assumption.
Defined.

(** C1 as stated fails on a grand-canonical trajectory with an empty frame:
    the loop processes the first frame only, with its three particles, and
    [_compute] normalizes with the mean over the two frames. *)
Lemma particle_number_not_processed_mean :
  ∃ (N_0 N_1 : float) (self' : RadialDistributionFunction) (v c : float),
    particle_numbers (rdf_trajectory example_rdf) (example_store (_pos_0 example_rdf))
                     (example_store (_pos_1 example_rdf)) = Ok (N_0, N_1)
    ∧ processed_frames example_store example_rdf = [0%nat]
    ∧ N_0 ≠ mean_processed_count example_store example_rdf (_pos_0 example_rdf)
    ∧ _compute sqrt_rational example_store example_rdf = Ok self'
    ∧ value self' !! 0%nat = Some v
    ∧ claimed_value sqrt_rational example_store example_rdf (side self') 0 = Some c
    ∧ v ≠ c.
Proof.
  eexists _, _, _, _, _. split; [reflexivity|]. split; [reflexivity|].
  split; [apply float_eqb_neq; vm_compute; reflexivity|].
  split; [reflexivity|]. split; [reflexivity|]. split; [reflexivity|].
  apply float_eqb_neq. vm_compute. reflexivity.
Qed.

(** ** analyze *)

Lemma analyze_never_raises (import_ifabsmm : result (pyval → pyval → result pyval))
    (self : NonGaussianParameter) :
  (analyze import_ifabsmm self).2 = Ok tt.
Proof.
  unfold analyze, try_except.
  destruct (analyze_body import_ifabsmm self) as [s' [[]|e]]; done.
Qed.

(** C9.  Whenever the body of the [try] of [analyze] raises, whatever raises in
    it (the import, [ifabsmm], the subscript or the unpacking), [analyze] raises
    nothing and leaves the object as it was: [results] is unchanged, and no
    ['t_star'] or ['a2_star'] is recorded. *)
Theorem analyze_failure_suppressed (import_ifabsmm : result (pyval → pyval → result pyval))
    (self : NonGaussianParameter) (e : exn) :
  (analyze_body import_ifabsmm self).2 = Raise e →
  analyze import_ifabsmm self = (self, Ok tt)
  ∧ results (analyze import_ifabsmm self).1 = results self.
Proof.
  intros Hfail.
  assert (H : analyze import_ifabsmm self = (self, Ok tt)); [|by rewrite H].
  unfold analyze, try_except. revert Hfail. unfold analyze_body.
  unfold mbind, stmt_bind, lift, read, update. cbn.
  destruct import_ifabsmm as [ifabsmm|e0]; [|done].
  destruct (ifabsmm (ngp_grid self) (ngp_value self)) as [report|e1]; [|done].
  destruct (py_getitem report 1) as [item|e2]; [|done].
  destruct (py_unpack2 item) as [[t a]|e3]; done.
Qed.

Lemma analyze_failure_suppressed_witness :
  (analyze_body ifabsmm_empty example_ngp).2 = Raise IndexError
  ∧ analyze ifabsmm_empty example_ngp = (example_ngp, Ok tt)
  ∧ results (analyze ifabsmm_empty example_ngp).1 = results example_ngp.
Proof.
  split; [reflexivity|].
  exact (analyze_failure_suppressed ifabsmm_empty example_ngp IndexError eq_refl).
Defined.

(** * Further properties *)

(** ** Representatives of a displacement modulo the period *)

(** Two representatives of [d] modulo [l] that lie within half a period of
    zero have the same square. *)
Lemma representatives_square (d l : Q) (z z' : Z) :
  (0 < l)%Q →
  (- (l * (1 # 2)) <= d - inject_Z z * l <= l * (1 # 2))%Q →
  (- (l * (1 # 2)) <= d - inject_Z z' * l <= l * (1 # 2))%Q →
  ((d - inject_Z z * l) * (d - inject_Z z * l)
   == (d - inject_Z z' * l) * (d - inject_Z z' * l))%Q.
Proof.
  intros Hl Hz Hz'.
  assert (Hk : (- (1) <= inject_Z z' - inject_Z z <= 1)%Q) by (split; nra).
  assert (Hk' : -1 <= z' - z <= 1).
  { destruct Hk as [H1 H2]. split.
    - rewrite Zle_Qle. unfold Z.sub. rewrite inject_Z_plus, inject_Z_opp.
      change (inject_Z (-1)) with (- (1))%Q. lra.
    - rewrite Zle_Qle. unfold Z.sub. rewrite inject_Z_plus, inject_Z_opp.
      change (inject_Z 1) with 1%Q. lra. }
  assert (Hc : z' = z ∨ z' = z + 1 ∨ z' = z - 1) by lia.
  destruct Hc as [->|[->| ->]].
  - reflexivity.
  - rewrite inject_Z_plus in *. change (inject_Z 1) with 1%Q in *. nra.
  - unfold Z.sub in *. rewrite inject_Z_plus, inject_Z_opp in *.
    change (inject_Z 1) with 1%Q in *. nra.
Qed.

Lemma Qrint_wrap (d l : Q) :
  (0 < l)%Q →
  (- (l * (1 # 2)) <= d - inject_Z (Qrint (d / l)) * l <= l * (1 # 2))%Q.
Proof.
  intros Hl. pose proof (Qrint_near (d / l)) as Hz.
  assert (Hd : (d == (d / l) * l)%Q) by (field; lra).
  set (t := (d / l)%Q) in *. set (z := inject_Z (Qrint t)) in *.
  split; rewrite Hd; nra.
Qed.

Lemma wrap1_Fin (d l : Qc) :
  Qc_eqb l 0 = false →
  wrap1 (Fin d) (Fin l) = Fin (d + - (Qc_of_Z (Qrint (d / l)%Qc) * l))%Qc.
Proof. intros E. unfold wrap1. cbn [fdiv]. by rewrite E. Qed.

Lemma Qrint_proper (q q' : Q) : (q == q')%Q → Qrint q = Qrint q'.
Proof.
  intros H. unfold Qrint. rewrite (Qfloor_comp _ _ H).
  assert (E : (q - inject_Z (Qfloor q') ?= 1 # 2)%Q = (q' - inject_Z (Qfloor q') ?= 1 # 2)%Q).
  { apply Qcompare_comp; [|reflexivity]. apply Qplus_comp; [exact H|reflexivity]. }
  by rewrite E.
Qed.

Lemma this_wrap (d l : Qc) :
  (this (d + - (Qc_of_Z (Qrint (d / l)%Qc) * l))%Qc
   == this d - inject_Z (Qrint (this d / this l)) * this l)%Q.
Proof.
  rewrite this_add, this_opp, this_mul.
  assert (E : Qrint (d / l)%Qc = Qrint (this d / this l)).
  { apply Qrint_proper, this_div. }
  rewrite E. reflexivity.
Qed.

(** The squared wrapped displacement is the same for [d], for [-d] and for
    either moved by whole periods. *)
Lemma wrap1_square_representative (d d' l : Qc) (s k : Z) :
  (0 < this l)%Q → s = 1 ∨ s = -1 →
  (this d' == inject_Z s * this d + inject_Z k * this l)%Q →
  fsquare (wrap1 (Fin d') (Fin l)) = fsquare (wrap1 (Fin d) (Fin l)).
Proof.
  intros Hl Hs Hd'.
  assert (E : Qc_eqb l 0 = false).
  { apply not_true_iff_false. rewrite Qc_eqb_eq. intros ->.
    change (this 0%Qc) with 0%Q in Hl. lra. }
  rewrite !wrap1_Fin by done. unfold fsquare. cbn [fmul]. f_equal.
  apply Qc_is_canon. rewrite !this_mul, !this_wrap.
  pose proof (Qrint_wrap (this d) (this l) Hl) as Hz.
  pose proof (Qrint_wrap (this d') (this l) Hl) as Hz'.
  set (z := Qrint (this d / this l)) in *.
  set (z' := Qrint (this d' / this l)) in *.
  destruct Hs as [-> | ->].
  - assert (Hb : (- (this l * (1 # 2)) <= this d - inject_Z (z' - k) * this l
                  <= this l * (1 # 2))%Q).
    { unfold Z.sub. rewrite inject_Z_plus, inject_Z_opp.
      rewrite Hd' in Hz'. change (inject_Z 1) with 1%Q in Hz'. split; lra. }
    pose proof (representatives_square _ _ _ _ Hl Hz Hb) as Hsq.
    rewrite Hsq, Hd'. unfold Z.sub. rewrite inject_Z_plus, inject_Z_opp.
    change (inject_Z 1) with 1%Q. ring.
  - assert (Hb : (- (this l * (1 # 2)) <= this d - inject_Z (k - z') * this l
                  <= this l * (1 # 2))%Q).
    { unfold Z.sub. rewrite inject_Z_plus, inject_Z_opp.
      rewrite Hd' in Hz'. change (inject_Z (-1)) with (- (1))%Q in Hz'. split; lra. }
    pose proof (representatives_square _ _ _ _ Hl Hz Hb) as Hsq.
    rewrite Hsq, Hd'. unfold Z.sub. rewrite inject_Z_plus, inject_Z_opp.
    change (inject_Z (-1)) with (- (1))%Q. ring.
Qed.

Lemma gr_kernel_square_row (a b L : row) :
  gr_kernel_square [a] b L = [fsum (map fsquare (zip_with wrap1 (row_op fsub a b) L))].
Proof.
  unfold gr_kernel_square. rewrite minimum_image_rows. reflexivity.
Qed.

Lemma gr_kernel_row (sqrt : float → float) (a b L : row) :
  gr_kernel sqrt [a] b L = [sqrt (fsum (map fsquare (zip_with wrap1 (row_op fsub a b) L)))].
Proof.
  unfold gr_kernel. rewrite minimum_image_rows. reflexivity.
Qed.

Lemma positive_period_inv (l : float) :
  positive_period l → ∃ q : Qc, l = Fin q ∧ (0 < this q)%Q.
Proof.
  intros [Hf Hp]. destruct l as [q| | |]; try discriminate Hf.
  exists q. split; [done|]. cbn in Hp. by apply Qc_ltb_lt in Hp.
Qed.

Lemma squares_symmetric (a b L : row) :
  Forall finite a → Forall finite b → Forall positive_period L →
  map fsquare (zip_with wrap1 (row_op fsub b a) L)
  = map fsquare (zip_with wrap1 (row_op fsub a b) L).
Proof.
  unfold row_op. intros Ha. revert b L.
  induction Ha as [|a0 a Ha0 Ha IH]; intros b L Hb HL; [by destruct b|].
  destruct Hb as [|b0 b Hb0 Hb]; [done|].
  destruct HL as [|l L Hl HL]; [done|].
  cbn [zip_with map]. rewrite IH by done. f_equal.
  destruct (finite_inv _ Ha0) as [p ->]. destruct (finite_inv _ Hb0) as [q ->].
  destruct (positive_period_inv _ Hl) as (l' & -> & Hl').
  unfold fsub. cbn [fneg fadd].
  apply (wrap1_square_representative _ _ _ (-1) 0); [done|by right|].
  rewrite !this_add, !this_opp. change (inject_Z (-1)) with (- (1))%Q.
  change (inject_Z 0) with 0%Q. ring.
Qed.

(** The distance of a particle to itself. *)
Lemma wrap1_zero (l : Qc) : (0 < this l)%Q → wrap1 fzero (Fin l) = fzero.
Proof.
  intros Hl.
  assert (E : Qc_eqb l 0 = false).
  { apply not_true_iff_false. rewrite Qc_eqb_eq. intros ->.
    change (this 0%Qc) with 0%Q in Hl. lra. }
  unfold fzero. rewrite wrap1_Fin by done. apply (f_equal Fin).
  apply Qc_is_canon. rewrite this_wrap. change (this 0%Qc) with 0%Q.
  assert (Hz : Qrint (0 / this l) = 0).
  { rewrite (Qrint_proper (0 / this l) 0); [reflexivity|]. field; lra. }
  rewrite Hz. change (inject_Z 0) with 0%Q. ring.
Qed.

Lemma fsum_zeros (l : list float) : Forall (λ v, v = fzero) l → fsum l = fzero.
Proof.
  induction 1 as [|v l -> _ IH]; [done|].
  change (fadd fzero (fsum l) = fzero). rewrite IH. apply fadd_zero_l.
Qed.

Lemma squares_self (a L : row) :
  Forall finite a → Forall positive_period L →
  Forall (λ v, v = fzero) (map fsquare (zip_with wrap1 (row_op fsub a a) L)).
Proof.
  unfold row_op. intros Ha. revert L.
  induction Ha as [|a0 a Ha0 Ha IH]; intros L HL; [constructor|].
  destruct HL as [|l L Hl HL]; [constructor|]. cbn [zip_with map].
  constructor; [|by apply IH].
  destruct (finite_inv _ Ha0) as [p ->].
  destruct (positive_period_inv _ Hl) as (l' & -> & Hl').
  unfold fsub. cbn [fneg fadd]. rewrite Qcplus_opp_r.
  change (Fin 0%Qc) with fzero. rewrite wrap1_zero by done.
  unfold fsquare, fzero. cbn [fmul]. f_equal; ring.
Qed.

(** X1.  The kernels are symmetric: for finite positions [a] and [b] in a cell
    of finite, strictly positive sides, the squared distance and the distance
    from [a] to [b] are those from [b] to [a]. *)
Theorem gr_kernel_symmetric (sqrt : float → float) (a b L : row) :
  Forall finite a → Forall finite b → Forall positive_period L →
  length a = length L → length b = length L →
  gr_kernel_square [a] b L = gr_kernel_square [b] a L
  ∧ gr_kernel sqrt [a] b L = gr_kernel sqrt [b] a L.
Proof.
  intros Ha Hb HL _ _.
  rewrite !gr_kernel_square_row, !gr_kernel_row.
  by rewrite (squares_symmetric a b L).
Qed.

Lemma gr_kernel_symmetric_witness :
  gr_kernel_square [[frac 1 10; frac 7 4]] [frac 8 10; frac (-5) 2] [fone; frac 3 1]
  = gr_kernel_square [[frac 8 10; frac (-5) 2]] [frac 1 10; frac 7 4] [fone; frac 3 1].
Proof.
  exact (proj1 (gr_kernel_symmetric sqrt_rational
                  [frac 1 10; frac 7 4] [frac 8 10; frac (-5) 2] [fone; frac 3 1]
                  ltac:(repeat constructor) ltac:(repeat constructor)
                  ltac:(repeat constructor) eq_refl eq_refl)).
Defined.

(** X4.  The distance of a particle to itself: for a finite position in a cell
    of finite, strictly positive sides the squared distance is exactly zero,
    and the distance is the square root of zero. *)
Theorem gr_kernel_self (sqrt : float → float) (a L : row) :
  Forall finite a → Forall positive_period L → length a = length L →
  gr_kernel_square [a] a L = [fzero] ∧ gr_kernel sqrt [a] a L = [sqrt fzero].
Proof.
  intros Ha HL _. rewrite gr_kernel_square_row, gr_kernel_row.
  by rewrite (fsum_zeros _ (squares_self a L Ha HL)).
Qed.

Lemma gr_kernel_self_witness :
  gr_kernel_square [[frac 1 10; frac 7 4]] [frac 1 10; frac 7 4] [fone; frac 3 1] = [fzero].
Proof.
  exact (proj1 (gr_kernel_self sqrt_rational [frac 1 10; frac 7 4] [fone; frac 3 1]
                  ltac:(repeat constructor) ltac:(repeat constructor) eq_refl)).
Defined.

Lemma list_as_lookups (x : array2) : x = map (λ j, x !!! j) (seq 0 (length x)).
Proof.
  rewrite <- (drop_0 x) at 1. rewrite (drop_lookup_total x 0). by rewrite Nat.sub_0_r.
Qed.

Lemma cross_values_pairs f (x y : array2) (L : row) :
  rowwise f →
  cross_values f x y L = pair_values f x y L (index_pairs (length y) (length x)).
Proof.
  intros Hf. unfold cross_values, pair_values, index_pairs.
  rewrite <- flat_map_flat_map. apply flat_map_ext. intros i.
  rewrite (proj1 (Hf _ _ _)), flat_map_map.
  rewrite (list_as_lookups x) at 1. by rewrite flat_map_map.
Qed.

Lemma length_index_pairs (M N : nat) : length (index_pairs M N) = (M * N)%nat.
Proof.
  unfold index_pairs. induction M as [|M IH]; [done|].
  rewrite seq_S, flat_map_app, length_app, IH. cbn [flat_map Nat.add].
  rewrite app_nil_r, length_map, length_seq. lia.
Qed.

Lemma length_pair_values f (x y : array2) (L : row) (pairs : list (nat * nat)) :
  rowwise f → length (pair_values f x y L pairs) = length pairs.
Proof.
  intros Hf. unfold pair_values. induction pairs as [|p l IH]; [done|].
  cbn [flat_map]. rewrite length_app, IH.
  pose proof (proj2 (Hf [x !!! p.2] (y !!! p.1) L)) as H.
  apply Forall_inv in H. by rewrite H.
Qed.

(** ** Histograms without values, and the sign of the counts *)

Lemma cum_counts_nil (bins : list float) :
  cum_counts [] bins = replicate (length bins) 0.
Proof.
  induction bins as [|e [|e' bins] IH]; [done..|].
  change (0 :: cum_counts [] (e' :: bins) = 0 :: replicate (length (e' :: bins)) 0).
  by rewrite IH.
Qed.

Lemma diff_replicate (n : nat) (c : Z) : diff (replicate n c) = replicate (n - 1) 0.
Proof.
  induction n as [|[|n] IH]; [done..|].
  replace (S (S n) - 1)%nat with (S n) by lia.
  change (c - c :: diff (replicate (S n) c) = 0 :: replicate n 0).
  rewrite IH. replace (S n - 1)%nat with n by lia. f_equal. lia.
Qed.

Lemma bin_counts_nil (bins : list float) :
  bin_counts [] bins = replicate (length bins - 1) 0.
Proof. unfold bin_counts. by rewrite cum_counts_nil, diff_replicate. Qed.

Lemma count_if_mono (p q : float → bool) (a : list float) :
  (∀ v, p v = true → q v = true) → count_if p a <= count_if q a.
Proof.
  intros Hpq. unfold count_if. induction a as [|v a IH]; [done|].
  rewrite !filter_cons. repeat case_decide; cbn [length]; try lia.
  by destruct (Hpq v).
Qed.

Lemma cum_counts_increasing (a bins : list float) :
  strictly_increasing bins = true →
  Forall (λ c, 0 <= c) (diff (cum_counts a bins)).
Proof.
  induction bins as [|e [|e' [|e'' bins]] IH]; intros Hs; [constructor..| |].
  - cbn. constructor; [|constructor].
    apply andb_true_iff in Hs as [H1 _].
    pose proof (count_if_mono (λ v, fltb v e) (λ v, fleb v e') a) as H.
    specialize (H (λ v Hv, fltb_fleb_trans v e e' Hv H1)). cbn in H. lia.
  - change (strictly_increasing (e :: e' :: e'' :: bins))
      with (fltb e e' && strictly_increasing (e' :: e'' :: bins)) in Hs.
    apply andb_true_iff in Hs as [H1 H2].
    change (cum_counts a (e :: e' :: e'' :: bins))
      with (count_if (λ v, fltb v e) a :: cum_counts a (e' :: e'' :: bins)).
    change (cum_counts a (e' :: e'' :: bins))
      with (count_if (λ v, fltb v e') a :: cum_counts a (e'' :: bins)) in *.
    change (Forall (λ c, 0 <= c)
              ((count_if (λ v, fltb v e') a - count_if (λ v, fltb v e) a)
               :: diff (count_if (λ v, fltb v e') a :: cum_counts a (e'' :: bins)))).
    constructor; [|by apply IH].
    pose proof (count_if_mono (λ v, fltb v e) (λ v, fltb v e') a) as H.
    specialize (H (λ v Hv, fltb_trans v e e' Hv H1)). lia.
Qed.

(** X5.  [pairs_hist] histograms every pair of a row of [y] and a row of [x],
    the pairs of equal indices included: for a kernel that works row by row
    and strictly increasing edges it returns the histogram of the
    [len(y) * len(x)] values, and the counts add up to the number of values
    within the edges.  It raises nothing when [x] or [y] is empty. *)
Theorem pairs_hist_all_pairs f (x y : array2) (L : row) (bins : list float) :
  rowwise f → strictly_increasing bins = true →
  let values := pair_values f x y L (index_pairs (length y) (length x)) in
  ∃ hist : list Z,
    pairs_hist f x y L bins = Ok hist
    ∧ histogram values bins = Ok hist
    ∧ length values = (length y * length x)%nat
    ∧ foldr Z.add 0 hist = count_if (in_range bins) values.
Proof.
  intros Hf Hs values. exists (bin_counts values bins).
  rewrite pairs_hist_values, cross_values_pairs by done. fold values.
  rewrite histogram_counts, strictly_increasing_monotonic by done.
  repeat split.
  - unfold values. by rewrite length_pair_values, length_index_pairs.
  - by apply sum_bin_counts.
Qed.

Lemma pairs_hist_all_pairs_witness :
  ∃ hist : list Z,
    pairs_hist (gr_kernel sqrt_rational) example_positions example_positions [fone]
      [fzero; frac 1 4; frac 1 2] = Ok hist
    ∧ length (pair_values (gr_kernel sqrt_rational) example_positions example_positions
                [fone] (index_pairs 3 3)) = 9%nat.
Proof.
  destruct (pairs_hist_all_pairs (gr_kernel sqrt_rational) example_positions
              example_positions [fone] [fzero; frac 1 4; frac 1 2]
              (gr_kernel_rowwise sqrt_rational) eq_refl) as (hist & H1 & _ & H3 & _).
  exists hist. split; [exact H1|exact H3].
Defined.

(** X6.  Edges that decrease somewhere are refused before anything else: both
    engines raise [ValueError] whatever the particles, even without any. *)
Theorem pairs_refuse_decreasing_edges f (x y : array2) (L : row) (bins : list float) :
  monotonic bins = false →
  pairs_newton_hist f x y L bins = Raise ValueError
  ∧ pairs_hist f x y L bins = Raise ValueError.
Proof.
  intros Hm. unfold pairs_newton_hist, pairs_hist, histogram. by rewrite Hm.
Qed.

Lemma pairs_refuse_decreasing_edges_witness :
  pairs_newton_hist gr_kernel_square [] [] [fone] [fone; fzero] = Raise ValueError
  ∧ pairs_hist gr_kernel_square [] [] [fone] [fone; fzero] = Raise ValueError.
Proof.
  exact (pairs_refuse_decreasing_edges gr_kernel_square [] [] [fone] [fone; fzero] eq_refl).
Defined.

(** X7.  Without a partner there is no pair.  For accepted edges, [pairs_hist]
    on an empty [y] returns a histogram of zeros and [pairs_newton_hist] on a
    single row of [y] does too; on an empty [y], [pairs_newton_hist] raises
    [ZeroDivisionError] (the batch size divides by [len(y)]). *)
Theorem pairs_without_partner f (x : array2) (y0 L : row) (bins : list float) :
  pairs_hist f x [] L bins
  = (if monotonic bins then Ok (replicate (length bins - 1) 0) else Raise ValueError)
  ∧ pairs_newton_hist f x [y0] L bins
    = (if monotonic bins then Ok (replicate (length bins - 1) 0) else Raise ValueError)
  ∧ pairs_newton_hist f x [] L bins
    = (if monotonic bins then Raise ZeroDivisionError else Raise ValueError).
Proof.
  split; [|split].
  - rewrite pairs_hist_values. unfold cross_values. cbn [length seq flat_map].
    by rewrite histogram_counts, bin_counts_nil.
  - rewrite pairs_newton_hist_values by done. unfold newton_values.
    cbn [length Nat.sub seq flat_map].
    by rewrite histogram_counts, bin_counts_nil.
  - unfold pairs_newton_hist, histogram. by destruct (monotonic bins).
Qed.

(** X8.  For strictly increasing edges and a non-empty [y], both engines
    return one count for each bin, [len(bins) - 1] of them, none negative. *)
Theorem pairs_hist_counts_shape f (x y : array2) (L : row) (bins : list float) :
  strictly_increasing bins = true → y ≠ [] →
  ∃ newton cross : list Z,
    pairs_newton_hist f x y L bins = Ok newton
    ∧ pairs_hist f x y L bins = Ok cross
    ∧ length newton = (length bins - 1)%nat
    ∧ length cross = (length bins - 1)%nat
    ∧ Forall (λ c, 0 <= c) newton
    ∧ Forall (λ c, 0 <= c) cross.
Proof.
  intros Hs Hy. eexists _, _.
  rewrite pairs_newton_hist_values, pairs_hist_values by done.
  rewrite !histogram_counts, strictly_increasing_monotonic by done.
  split; [done|]. split; [done|].
  rewrite !length_bin_counts. split; [done|]. split; [done|].
  split; by apply cum_counts_increasing.
Qed.

Lemma pairs_hist_counts_shape_witness :
  ∃ newton cross : list Z,
    pairs_newton_hist (gr_kernel sqrt_rational) example_positions example_positions
      [fone] [fzero; frac 1 4; frac 1 2] = Ok newton
    ∧ pairs_hist (gr_kernel sqrt_rational) example_positions example_positions
        [fone] [fzero; frac 1 4; frac 1 2] = Ok cross
    ∧ length newton = 2%nat ∧ length cross = 2%nat
    ∧ Forall (λ c, 0 <= c) newton
    ∧ Forall (λ c, 0 <= c) cross.
Proof.
  apply (pairs_hist_counts_shape (gr_kernel sqrt_rational) example_positions
           example_positions [fone] [fzero; frac 1 4; frac 1 2] eq_refl).
  discriminate.
Defined.

(** ** The size of a batch *)

Lemma length_rowwise f (x : array2) (y L : row) :
  rowwise f → length (f x y L) = length x.
Proof.
  intros Hf. destruct (Hf x y L) as [-> Hl].
  induction Hl as [|xi x Hxi _ IH]; [done|].
  cbn [flat_map]. rewrite length_app, Hxi, IH. done.
Qed.

Lemma length_rows_after f (x y : array2) (L : row) (rows : list nat) :
  rowwise f →
  (length (flat_map (λ i, f (drop (i + 1) x) (y !!! i) L) rows)
   ≤ length rows * (length x - 1))%nat.
Proof.
  intros Hf. induction rows as [|i rows IH]; [done|].
  cbn [flat_map]. rewrite length_app, length_rowwise, length_drop by done.
  cbn [length]. lia.
Qed.

(** X9.  What the batches are for: with the batch size of the source, a batch
    of the self-pair loop holds at most 100000 values, or the values of a
    single row when there are more than 100000 particles. *)
Theorem batch_values_bounded f (x y : array2) (L : row) (ib : nat) :
  rowwise f → y ≠ [] → (length x ≤ length y)%nat →
  ∃ bl : nat,
    batch_length y = Ok bl
    ∧ Z.of_nat (length (batch_values f x y L ib bl))
      <= Z.max 100000 (Z.of_nat (length y) - 1).
Proof.
  intros Hf Hy Hxy. eexists. split; [by apply batch_length_spec|].
  unfold batch_values.
  pose proof (length_rows_after f x y L
                (py_range ib (min (ib + Nat.max 1 (Z.to_nat (100000 / Z.of_nat (length y))))
                                  (length y - 1)) 1) Hf) as Hlen.
  rewrite py_range_1, length_seq in Hlen. rewrite py_range_1.
  assert (Hn : (0 < length y)%nat) by (destruct y; [done|simpl; lia]).
  set (n := Z.of_nat (length y)) in *.
  pose proof (Z.div_pos 100000 n ltac:(lia) ltac:(lia)) as Hq.
  pose proof (Z.mul_div_le 100000 n ltac:(lia)) as Hqn.
  set (q := 100000 / n) in *.
  set (len := length (flat_map _ _)) in *.
  assert (Hrows : Z.of_nat len <= Z.max 1 q * (n - 1)).
  { assert (Hnat : (len ≤ Nat.max 1 (Z.to_nat q) * (length x - 1))%nat).
    { etrans; [exact Hlen|]. apply Nat.mul_le_mono_r.
      clear. lia. }
    apply Nat2Z.inj_le in Hnat. rewrite Nat2Z.inj_mul in Hnat.
    assert (Z.of_nat (Nat.max 1 (Z.to_nat q)) = Z.max 1 q) by lia.
    assert (Z.of_nat (length x - 1) <= n - 1) by lia.
    nia. }
  assert (Hn1 : 1 <= n) by lia.
  clearbody len q n.
  destruct (Z.max_spec 1 q) as [[? E]|[? E]]; rewrite E in Hrows.
  - replace (q * (n - 1)) with (n * q - q) in Hrows by ring. lia.
  - lia.
Qed.

Lemma batch_values_bounded_witness :
  ∃ bl : nat,
    batch_length example_positions = Ok bl
    ∧ Z.of_nat (length (batch_values (gr_kernel sqrt_rational) example_positions
                          example_positions [fone] 0 bl))
      <= Z.max 100000 (Z.of_nat (length example_positions) - 1).
Proof.
  apply batch_values_bounded;
    [exact (gr_kernel_rowwise sqrt_rational)|discriminate|reflexivity].
Defined.

(** ** Pairs in both orders *)

Lemma elem_of_index_pairs (M N : nat) (p : nat * nat) :
  p ∈ index_pairs M N ↔ (p.1 < M)%nat ∧ (p.2 < N)%nat.
Proof.
  unfold index_pairs. induction M as [|M IH].
  - cbn. split; [by intros ?%elem_of_nil|lia].
  - rewrite seq_S, flat_map_app, elem_of_app, IH. cbn [flat_map Nat.add].
    rewrite app_nil_r, list_elem_of_fmap. split.
    + intros [?|(j & -> & Hj)]; [lia|]. apply elem_of_seq in Hj. cbn. lia.
    + intros [H1 H2]. destruct (decide (p.1 < M)%nat); [left; lia|right].
      exists p.2. split; [destruct p; cbn in *; f_equal; lia|].
      apply elem_of_seq. lia.
Qed.

Lemma NoDup_index_pairs (M N : nat) : NoDup (index_pairs M N).
Proof.
  unfold index_pairs. induction M as [|M IH]; [constructor|].
  rewrite seq_S, flat_map_app. cbn [flat_map Nat.add]. rewrite app_nil_r.
  apply NoDup_app. split; [done|]. split.
  - intros p Hp%elem_of_index_pairs (j & -> & _)%list_elem_of_fmap. cbn in Hp. lia.
  - apply (NoDup_fmap_2 (pair M)), NoDup_seq.
Qed.

Global Instance swap_inj : Inj (=) (=) swap.
Proof. intros [a b] [c d]. unfold swap. cbn. congruence. Qed.

Lemma index_pairs_split (N : nat) :
  index_pairs N N
  ≡ₚ filter (λ p, (p.1 < p.2)%nat) (index_pairs N N)
     ++ map swap (filter (λ p, (p.1 < p.2)%nat) (index_pairs N N))
     ++ map (λ i, (i, i)) (seq 0 N).
Proof.
  apply NoDup_Permutation.
  - apply NoDup_index_pairs.
  - apply NoDup_app. split; [apply NoDup_filter, NoDup_index_pairs|]. split.
    + intros p [Hlt _]%list_elem_of_filter [H|H]%elem_of_app.
      * apply list_elem_of_fmap in H as (q & -> & [Hq _]%list_elem_of_filter).
        unfold swap in Hlt. cbn in Hlt. lia.
      * apply list_elem_of_fmap in H as (i & -> & _). cbn in Hlt. lia.
    + apply NoDup_app. split; [apply (NoDup_fmap_2 swap), NoDup_filter, NoDup_index_pairs|].
      split.
      * intros p (q & -> & [Hq _]%list_elem_of_filter)%list_elem_of_fmap
               (i & E & _)%list_elem_of_fmap.
        unfold swap in E. injection E as E1 E2. lia.
      * apply NoDup_fmap_2; [|apply NoDup_seq]. intros i j. congruence.
  - intros [i j]. rewrite !elem_of_app, list_elem_of_filter, !list_elem_of_fmap,
      elem_of_index_pairs. cbn. split.
    + intros [Hi Hj]. destruct (lt_eq_lt_dec i j) as [[Hlt|Heq]|Hgt].
      * by left.
      * right; right. exists i. split; [by subst|]. apply elem_of_seq. lia.
      * right; left. exists (j, i). split; [done|].
        apply list_elem_of_filter. rewrite elem_of_index_pairs. cbn. lia.
    + intros [[Hlt [Hi Hj]]|[(q & E & Hq)|(k & E & Hk)]]; [done| |].
      * apply list_elem_of_filter in Hq as [Hlt Hq].
        apply elem_of_index_pairs in Hq. unfold swap in E. injection E as -> ->. lia.
      * injection E as -> ->. apply elem_of_seq in Hk. lia.
Qed.

Lemma count_if_Permutation (p : float → bool) (a b : list float) :
  a ≡ₚ b → count_if p a = count_if p b.
Proof. intros H. unfold count_if. by rewrite H. Qed.

Lemma bin_counts_Permutation (a b bins : list float) :
  a ≡ₚ b → bin_counts a bins = bin_counts b bins.
Proof.
  intros H. unfold bin_counts. f_equal.
  induction bins as [|e [|e' bins] IH]; [done| |].
  - cbn. by rewrite (count_if_Permutation _ a b).
  - change (count_if (λ v, fltb v e) a :: cum_counts a (e' :: bins)
            = count_if (λ v, fltb v e) b :: cum_counts b (e' :: bins)).
    by rewrite IH, (count_if_Permutation _ a b).
Qed.

Lemma pair_values_app f (x y : array2) (L : row) (l k : list (nat * nat)) :
  pair_values f x y L (l ++ k) = pair_values f x y L l ++ pair_values f x y L k.
Proof. apply flat_map_app. Qed.

Lemma pair_values_Permutation f (x y : array2) (L : row) (l k : list (nat * nat)) :
  l ≡ₚ k → pair_values f x y L l ≡ₚ pair_values f x y L k.
Proof. intros H. unfold pair_values. by apply Permutation_flat_map. Qed.

Lemma pair_values_swap f (x : array2) (L : row) (l : list (nat * nat)) :
  symmetric_on f x L →
  Forall (λ p, (p.1 < length x)%nat ∧ (p.2 < length x)%nat) l →
  pair_values f x x L (map swap l) = pair_values f x x L l.
Proof.
  intros Hsym Hl. unfold pair_values. rewrite flat_map_map.
  induction Hl as [|p l [H1 H2] _ IH]; [done|].
  cbn [flat_map]. rewrite IH. f_equal. unfold swap. cbn. by apply Hsym.
Qed.

Lemma cross_values_split f (x : array2) (L : row) :
  rowwise f → symmetric_on f x L →
  cross_values f x x L
  ≡ₚ brute_force_values f x L ++ brute_force_values f x L ++ self_values f x L.
Proof.
  intros Hf Hsym. rewrite cross_values_pairs by done.
  rewrite (pair_values_Permutation _ _ _ _ _ _ (index_pairs_split (length x))).
  rewrite !pair_values_app, pair_values_swap.
  - unfold pair_values at 3. rewrite flat_map_map. done.
  - done.
  - apply Forall_forall. intros p [_ Hp%elem_of_index_pairs]%list_elem_of_filter. done.
Qed.

Lemma gr_kernel_symmetric_on (sqrt : float → float) (x : array2) (L : row) :
  Forall (Forall finite) x → Forall positive_period L →
  symmetric_on (gr_kernel sqrt) x L.
Proof.
  intros Hx HL i j Hi Hj. rewrite !gr_kernel_row.
  rewrite (squares_symmetric (x !!! i) (x !!! j) L); [done| | |done].
  - eapply Forall_lookup_1; [exact Hx|]. by apply list_lookup_lookup_total_lt.
  - eapply Forall_lookup_1; [exact Hx|]. by apply list_lookup_lookup_total_lt.
Qed.

Lemma hist_add_assoc (a b c : list Z) :
  hist_add a (hist_add b c) = hist_add (hist_add a b) c.
Proof.
  unfold hist_add. revert b c. induction a as [|a0 a IH]; intros [|b0 b] [|c0 c]; try done.
  cbn [zip_with]. rewrite IH. f_equal. lia.
Qed.

(** X10.  Why the self-pair normalization carries a factor one half: on one
    set of particles, for a kernel that works row by row and is symmetric on
    them, the histogram of [pairs_hist] is, bin for bin, twice the histogram of
    [pairs_newton_hist] plus the histogram of the distances of the particles
    to themselves. *)
Theorem pairs_hist_twice_newton f (x : array2) (L : row) (bins : list float) :
  rowwise f → symmetric_on f x L → x ≠ [] → monotonic bins = true →
  ∃ cross newton self : list Z,
    pairs_hist f x x L bins = Ok cross
    ∧ pairs_newton_hist f x x L bins = Ok newton
    ∧ histogram (self_values f x L) bins = Ok self
    ∧ cross = hist_add (hist_add newton newton) self.
Proof.
  intros Hf Hsym Hx Hm. eexists _, _, _.
  rewrite pairs_hist_values, pairs_newton_hist_values by done.
  rewrite !histogram_counts, Hm. split; [done|]. split; [done|]. split; [done|].
  rewrite (bin_counts_Permutation _ _ _ (cross_values_split f x L Hf Hsym)).
  rewrite !bin_counts_app, newton_values_brute_force by done.
  apply hist_add_assoc.
Qed.

Lemma pairs_hist_twice_newton_witness :
  ∃ cross newton self : list Z,
    pairs_hist (gr_kernel sqrt_rational) example_positions example_positions [fone]
      [fzero; frac 1 4; frac 1 2] = Ok cross
    ∧ pairs_newton_hist (gr_kernel sqrt_rational) example_positions example_positions
        [fone] [fzero; frac 1 4; frac 1 2] = Ok newton
    ∧ histogram (self_values (gr_kernel sqrt_rational) example_positions [fone])
        [fzero; frac 1 4; frac 1 2] = Ok self
    ∧ cross = hist_add (hist_add newton newton) self.
Proof.
  apply pairs_hist_twice_newton.
  - exact (gr_kernel_rowwise sqrt_rational).
  - apply gr_kernel_symmetric_on; repeat constructor.
  - discriminate.
  - reflexivity.
Defined.

Lemma grid_edges_step_spec (rgrid : list float) (r0 r1 : float) (grid : list float) (i : nat) :
  rgrid !! 0%nat = Some r0 → rgrid !! 1%nat = Some r1 → (i < length rgrid)%nat →
  grid_edges_step rgrid grid i = Ok (grid ++ [fsub (rgrid !!! i) (half_spacing r0 r1)]).
Proof.
  intros H0 H1 Hi. unfold grid_edges_step.
  rewrite (py_index_lt rgrid i Hi). unfold py_index. by rewrite H0, H1.
Qed.

Lemma grid_edges_loop (rgrid : list float) (r0 r1 : float) (rows : list nat) (grid : list float) :
  rgrid !! 0%nat = Some r0 → rgrid !! 1%nat = Some r1 →
  Forall (λ i, (i < length rgrid)%nat) rows →
  foldM (grid_edges_step rgrid) rows grid
  = Ok (grid ++ map (λ i, fsub (rgrid !!! i) (half_spacing r0 r1)) rows).
Proof.
  intros H0 H1 Hrows. revert grid.
  induction Hrows as [|i rows Hi _ IH]; intros grid.
  - cbn. by rewrite app_nil_r.
  - cbn [foldM]. rewrite (grid_edges_step_spec rgrid r0 r1) by done.
    cbn [mbind result_bind]. rewrite IH. cbn [map]. by rewrite <- app_assoc.
Qed.

Lemma map_lookup_total_seq {A} `{Inhabited A} (l : list A) :
  map (λ i, l !!! i) (seq 0 (length l)) = l.
Proof.
  apply list_eq. intros i. rewrite list_lookup_fmap.
  destruct (decide (i < length l)%nat) as [Hi|Hi].
  - rewrite lookup_seq_lt by done. cbn. symmetry. by apply list_lookup_lookup_total_lt.
  - rewrite lookup_seq_ge by lia. cbn. symmetry. apply lookup_ge_None. lia.
Qed.

Lemma last_default {A} (l : list A) (d : A) :
  last l = match l with [] => None | _ => Some (List.last l d) end.
Proof.
  induction l as [|a [|b l] IH]; [done..|].
  change (last (b :: l) = Some (List.last (b :: l) d)). by rewrite IH.
Qed.

Lemma grid_edges_spec (r0 r1 : float) (rest : list float) :
  let rgrid := r0 :: r1 :: rest in
  grid_edges rgrid
  = Ok (map (λ r, fsub r (half_spacing r0 r1)) rgrid
        ++ [fadd (List.last rgrid NaN) (half_spacing r0 r1)]).
Proof.
  intros rgrid. unfold grid_edges.
  rewrite (grid_edges_loop rgrid r0 r1) by
    (done || (rewrite py_range_1; apply Forall_forall; intros i Hi%elem_of_seq; lia)).
  cbn [mbind result_bind app]. unfold py_index_last, py_index.
  rewrite (last_default rgrid NaN). cbn [rgrid lookup list_lookup mret result_ret].
  rewrite py_range_1, Nat.sub_0_r. cbn [mbind result_bind mret result_ret].
  do 2 f_equal.
  rewrite <- (map_map (λ i, rgrid !!! i) (λ r, fsub r (half_spacing r0 r1))).
  by rewrite map_lookup_total_seq.
Qed.

(** X11.  [__init__] needs two centers to reconstruct the edges: with fewer
    the subscripts [rgrid[1]] or [rgrid[-1]] raise [IndexError]; otherwise
    there is one more edge than there are centers. *)
Theorem grid_edges_length (rgrid : list float) :
  match grid_edges rgrid with
  | Ok grid => (2 ≤ length rgrid)%nat ∧ length grid = (length rgrid + 1)%nat
  | Raise e => e = IndexError ∧ (length rgrid < 2)%nat
  end.
Proof.
  destruct rgrid as [|r0 [|r1 rest]]; [cbn; split; [done|lia]..|].
  rewrite grid_edges_spec. split; [simpl; lia|].
  rewrite length_app, length_map. simpl. lia.
Qed.

(** ** Increasing edges *)

Lemma strictly_increasing_snoc (l : list float) (a e : float) :
  strictly_increasing ((l ++ [a]) ++ [e])
  = strictly_increasing (l ++ [a]) && fltb a e.
Proof.
  induction l as [|b [|c l] IH].
  - cbn. by rewrite !andb_true_r.
  - cbn. by rewrite !andb_true_r.
  - change (fltb b c && strictly_increasing (((c :: l) ++ [a]) ++ [e])
            = fltb b c && strictly_increasing ((c :: l) ++ [a]) && fltb a e).
    rewrite IH. by rewrite andb_assoc.
Qed.

Lemma fltb_sub_r (a b h : float) :
  finite a → finite b → finite h →
  fltb a b = true → fltb (fsub a h) (fsub b h) = true.
Proof.
  intros [p ->]%finite_inv [q ->]%finite_inv [r ->]%finite_inv.
  unfold fsub. cbn [fneg fadd fltb]. rewrite !Qc_ltb_lt, !this_add, this_opp. lra.
Qed.

Lemma strictly_increasing_shift (l : list float) (h : float) :
  Forall finite l → finite h →
  strictly_increasing l = true →
  strictly_increasing (map (λ r, fsub r h) l) = true.
Proof.
  intros Hl Hh. induction Hl as [|a l Ha Hl IH]; [done|].
  destruct Hl as [|b l Hb Hl]; [done|].
  change ((fltb a b && strictly_increasing (b :: l) = true)
          → fltb (fsub a h) (fsub b h) && strictly_increasing (map (λ r, fsub r h) (b :: l)) = true).
  intros [H1 H2]%andb_true_iff. rewrite IH by done.
  by rewrite fltb_sub_r.
Qed.

Lemma half_spacing_positive (r0 r1 : float) :
  finite r0 → finite r1 → fltb r0 r1 = true →
  ∃ h : Qc, half_spacing r0 r1 = Fin h ∧ (0 < this h)%Q.
Proof.
  intros [p ->]%finite_inv [q ->]%finite_inv Hlt.
  unfold half_spacing, fsub, of_Z. cbn [fneg fadd fdiv].
  replace (Qc_eqb (Qc_of_Z 2) 0) with false by reflexivity.
  eexists. split; [done|].
  cbn [fltb] in Hlt. apply Qc_ltb_lt in Hlt.
  rewrite this_div, this_add, this_opp. cbn [this Qc_of_Z].
  apply Qlt_shift_div_l; [done|]. lra.
Qed.

Lemma snoc_destruct {A} (l : list A) : l = [] ∨ ∃ l' a, l = l' ++ [a].
Proof.
  induction l as [|b l IH] using rev_ind; [by left|right; eauto].
Qed.

Lemma grid_edges_increasing (rgrid : list float) :
  Forall finite rgrid → (2 ≤ length rgrid)%nat → strictly_increasing rgrid = true →
  ∃ grid : list float,
    grid_edges rgrid = Ok grid
    ∧ length grid = (length rgrid + 1)%nat
    ∧ strictly_increasing grid = true.
Proof.
  intros Hf Hlen Hs. destruct rgrid as [|r0 [|r1 rest]]; [simpl in Hlen; lia..|].
  eexists. split; [apply grid_edges_spec|].
  split; [rewrite length_app, length_map; simpl; lia|].
  assert (Hr0 : finite r0) by (by apply Forall_inv in Hf).
  assert (Hr1 : finite r1) by (by apply Forall_inv_tail, Forall_inv in Hf).
  assert (H01 : fltb r0 r1 = true).
  { change (fltb r0 r1 && strictly_increasing (r1 :: rest) = true) in Hs.
    by apply andb_true_iff in Hs as [? _]. }
  destruct (half_spacing_positive r0 r1 Hr0 Hr1 H01) as (h & Hh & Hpos).
  rewrite Hh.
  pose proof (strictly_increasing_shift _ (Fin h) Hf eq_refl Hs) as Hshift.
  destruct (snoc_destruct (r0 :: r1 :: rest)) as [E|(l & a & E)]; [done|].
  rewrite E in *. rewrite last_last, map_app. cbn [map].
  rewrite map_app in Hshift. cbn [map] in Hshift.
  rewrite strictly_increasing_snoc, Hshift. cbn [andb].
  apply Forall_app in Hf as [_ Ha]. apply Forall_inv in Ha.
  destruct (finite_inv _ Ha) as [q ->].
  unfold fsub. cbn [fneg fadd fltb]. rewrite Qc_ltb_lt, !this_add, this_opp. lra.
Qed.

(** X12.  Finite, strictly increasing centers, at least two of them, give
    edges that do not decrease: the grid that [__init__] builds is one that
    [numpy.histogram] accepts, and the histogram has one bin for each center. *)
Theorem grid_edges_accepted (rgrid : list float) :
  Forall finite rgrid → (2 ≤ length rgrid)%nat → strictly_increasing rgrid = true →
  ∃ (grid : list float) (hist : list Z),
    grid_edges rgrid = Ok grid
    ∧ monotonic grid = true
    ∧ histogram [] grid = Ok hist
    ∧ length hist = length rgrid.
Proof.
  intros Hf Hlen Hs.
  destruct (grid_edges_increasing rgrid Hf Hlen Hs) as (grid & Hg & Hl & Hi).
  apply strictly_increasing_monotonic in Hi.
  exists grid, (bin_counts [] grid). split; [done|]. split; [done|].
  rewrite histogram_counts, Hi.
  split; [done|]. rewrite length_bin_counts, Hl. lia.
Qed.

Lemma grid_edges_accepted_witness :
  ∃ (grid : list float) (hist : list Z),
    grid_edges [frac 1 8; frac 3 8; frac 5 8] = Ok grid
    ∧ monotonic grid = true
    ∧ histogram [] grid = Ok hist
    ∧ length hist = 3%nat.
Proof.
  apply (grid_edges_accepted [frac 1 8; frac 3 8; frac 5 8]);
    [repeat constructor|simpl; lia|reflexivity].
Defined.

(** ** The shape of the result of [_compute] *)

Lemma length_ndarray_div (n : nat) (gr_all : list (list Z)) (norm : row) :
  Forall (λ h, length h = n) gr_all → length norm = n →
  length (ndarray_div (mean_axis0 gr_all) norm) = n.
Proof.
  intros Hall Hn. destruct gr_all as [|h rest].
  - cbn [mean_axis0 ndarray_div]. by rewrite length_map.
  - cbn [mean_axis0 ndarray_div column_sums].
    apply Forall_cons in Hall as [Hh Hrest].
    rewrite length_zip_with, length_map, (length_foldl_hist_add n) by done. lia.
Qed.

Lemma fdiv_nan_l (a : float) : fdiv NaN a = NaN.
Proof. by destruct a. Qed.

(** X14.  On a well-formed object with at least two edges [_compute] replaces
    the edges by the midpoints of the bins and writes one value for each bin:
    the new grid and the values both have [len(edges) - 1] entries. *)
Theorem compute_shape (sqrt : float → float) (store : addr → list array2)
    (self : RadialDistributionFunction) :
  well_formed store self → (2 ≤ length (grid self))%nat →
  ∃ self' : RadialDistributionFunction,
    _compute sqrt store self = Ok self'
    ∧ grid self' = bin_centers (grid self)
    ∧ length (grid self') = (length (grid self) - 1)%nat
    ∧ length (value self') = (length (grid self) - 1)%nat.
Proof.
  intros wf Hg. eexists. split; [by apply compute_values|]. cbn [grid value].
  split; [done|]. split; [apply length_bin_centers|].
  apply length_ndarray_div.
  - apply length_frame_histograms.
  - unfold normalization_of. by rewrite length_normalization, length_shell_volumes.
Qed.

Lemma compute_shape_witness :
  ∃ self' : RadialDistributionFunction,
    _compute sqrt_rational example_store example_rdf = Ok self'
    ∧ grid self' = bin_centers (grid example_rdf)
    ∧ length (grid self') = (length (grid example_rdf) - 1)%nat
    ∧ length (value self') = (length (grid example_rdf) - 1)%nat.
Proof.
  apply compute_shape; [split; done|cbn; lia].
Defined.

(** X15.  When every sampled frame is skipped there is no histogram to
    average: [_compute] raises nothing and every value is [nan]. *)
Theorem compute_without_frames (sqrt : float → float) (store : addr → list array2)
    (self : RadialDistributionFunction) :
  well_formed store self →
  Forall (λ i, degenerate store self i = true) (sampled self) →
  ∃ self' : RadialDistributionFunction,
    _compute sqrt store self = Ok self'
    ∧ value self' = replicate (length (grid self) - 1) NaN.
Proof.
  intros wf Hdeg.
  assert (Hp : processed_frames store self = []).
  { unfold processed_frames. induction Hdeg as [|i l Hi _ IH]; [done|].
    rewrite filter_cons, IH. case_decide; [congruence|done]. }
  rewrite compute_spec by done. cbn zeta. rewrite Hp. cbn [map].
  rewrite average_axis0_nil. cbn [mbind result_bind].
  eexists. split; [done|]. cbn [value ndarray_div].
  rewrite <- length_shell_volumes,
    <- (length_normalization (is_ (_pos_0 self) (_pos_1 self))
          (fdiv (particle_number (rdf_trajectory self) (store (_pos_1 self)))
             (fprod (List.last (map (λ i, cells (rdf_trajectory self) !!! i) (sampled self))
                       (side self))))
          (particle_number (rdf_trajectory self) (store (_pos_0 self)))).
  generalize (normalization (is_ (_pos_0 self) (_pos_1 self))
          (fdiv (particle_number (rdf_trajectory self) (store (_pos_1 self)))
             (fprod (List.last (map (λ i, cells (rdf_trajectory self) !!! i) (sampled self))
                       (side self))))
          (shell_volumes (grid self))
          (particle_number (rdf_trajectory self) (store (_pos_0 self)))).
  intros norm. induction norm as [|a norm IH]; [done|].
  cbn [map length replicate]. by rewrite IH, fdiv_nan_l.
Qed.

Lemma compute_without_frames_witness :
  ∃ self' : RadialDistributionFunction,
    _compute sqrt_rational empty_store example_rdf = Ok self'
    ∧ value self' = replicate (length (grid example_rdf) - 1) NaN.
Proof.
  apply compute_without_frames; [split; done|repeat constructor].
Defined.

Lemma py_index_raises {A} (l : list A) (i : nat) (e : exn) :
  py_index l i = Raise e → e = IndexError.
Proof. unfold py_index. destruct (l !! i); congruence. Qed.

Lemma particle_numbers_raises (tr : trajectory) (pos_0 pos_1 : list array2) (e : exn) :
  particle_numbers tr pos_0 pos_1 = Raise e → e = IndexError.
Proof.
  unfold particle_numbers. destruct (grandcanonical tr); [done|].
  destruct (py_index pos_0 0) eqn:E0; cbn [mbind result_bind].
  - destruct (py_index pos_1 0) eqn:E1; cbn [mbind result_bind]; [done|].
    intros [= <-]. by apply py_index_raises in E1.
  - intros [= <-]. by apply py_index_raises in E0.
Qed.

Lemma particle_numbers_first (tr : trajectory) (pos_0 pos_1 : list array2) (N : float * float) :
  particle_numbers tr pos_0 pos_1 = Ok N → grandcanonical tr = false → pos_0 ≠ [].
Proof.
  unfold particle_numbers. intros H Hg. rewrite Hg in H. by destruct pos_0.
Qed.

Lemma compute_raises_cases (sqrt : float → float) (store : addr → list array2)
    (self : RadialDistributionFunction) :
  length (store (_pos_0 self)) = length (cells (rdf_trajectory self)) →
  length (store (_pos_1 self)) = length (cells (rdf_trajectory self)) →
  well_formed store self
  ∨ _compute sqrt store self = Raise IndexError
  ∨ _compute sqrt store self = Raise ValueError.
Proof.
  intros H0 H1. unfold _compute.
  destruct (particle_numbers _ _ _) as [[N_0 N_1]|e] eqn:Ep; cbn [mbind result_bind].
  - destruct (monotonic (grid self)) eqn:Em.
    + destruct (Nat.eqb_spec (skip self) 0) as [Es|Es].
      * right; right. unfold histogram, frame_loop, sampled_frames.
        rewrite Em. cbn [mbind result_bind]. by rewrite Es.
      * left. split; try done. intros Hg Hc.
        apply (particle_numbers_first _ _ _ _ Ep Hg).
        apply length_zero_iff_nil. by rewrite H0, Hc.
    + right; right. unfold histogram. by rewrite Em.
  - right; left. by rewrite (particle_numbers_raises _ _ _ _ Ep).
Qed.

Lemma compute_well_formed_cases (sqrt : float → float) (store : addr → list array2)
    (self : RadialDistributionFunction) :
  well_formed store self →
  ((2 ≤ length (grid self))%nat ∨ processed_frames store self = [])
  ∧ (∃ self', _compute sqrt store self = Ok self')
  ∨ ¬ ((2 ≤ length (grid self))%nat ∨ processed_frames store self = [])
    ∧ _compute sqrt store self = Raise ZeroDivisionError.
Proof.
  intros wf. rewrite compute_spec by done. cbn zeta.
  destruct (processed_frames store self) as [|i frames] eqn:Hp.
  - left. split; [by right|]. cbn [map]. rewrite average_axis0_nil. by eexists.
  - destruct (le_lt_dec 2 (length (grid self))) as [Hg|Hg].
    + left. split; [by left|].
      rewrite (average_axis0_bins (length (grid self) - 1));
        [by eexists|apply length_frame_histograms|lia].
    + right. split; [intros [?|?]; [lia|done]|].
      rewrite average_axis0_no_bins; [done| |done].
      replace 0%nat with (length (grid self) - 1)%nat by lia.
      apply length_frame_histograms.
Qed.

(** X16.  When the two lists of positions have one entry for each frame,
    [_compute] returns exactly when the stride is not zero, the edges do not
    decrease, the trajectory is grand canonical or has a frame, and there are
    at least two edges or no frame is processed.  Otherwise it raises
    [IndexError] (no first frame), [ValueError] (a zero stride, edges that
    decrease) or [ZeroDivisionError] (the average of histograms without
    bins). *)
Theorem compute_returns_iff (sqrt : float → float) (store : addr → list array2)
    (self : RadialDistributionFunction) :
  length (store (_pos_0 self)) = length (cells (rdf_trajectory self)) →
  length (store (_pos_1 self)) = length (cells (rdf_trajectory self)) →
  ((∃ self', _compute sqrt store self = Ok self')
   ↔ skip self ≠ 0%nat
     ∧ monotonic (grid self) = true
     ∧ (grandcanonical (rdf_trajectory self) = false → cells (rdf_trajectory self) ≠ [])
     ∧ ((2 ≤ length (grid self))%nat ∨ processed_frames store self = []))
  ∧ ((∀ self', _compute sqrt store self ≠ Ok self')
     → _compute sqrt store self = Raise IndexError
       ∨ _compute sqrt store self = Raise ValueError
       ∨ _compute sqrt store self = Raise ZeroDivisionError).
Proof.
  intros H0 H1.
  destruct (compute_raises_cases sqrt store self H0 H1) as [wf|Hr].
  - destruct (compute_well_formed_cases sqrt store self wf) as [[Hb Hok]|[Hb Hr]].
    + split; [split; [intros _; destruct wf; done|done]|].
      intros Hno. destruct Hok as [self' Hok]. destruct (Hno _ Hok).
    + split; [split|by right; right].
      * intros [self' Hc]. congruence.
      * intros (_ & _ & _ & Hb'). done.
  - split; [split|tauto].
    + intros [self' Hc]. destruct Hr; congruence.
    + intros (Hs & Hm & Hf & _).
      assert (wf : well_formed store self) by (split; done).
      destruct (compute_well_formed_cases sqrt store self wf) as [[_ [self' Hok]]|[_ Hz]];
        destruct Hr; congruence.
Qed.

Lemma compute_returns_iff_witness :
  (∃ self', _compute sqrt_rational example_store example_rdf = Ok self')
  ↔ skip example_rdf ≠ 0%nat
    ∧ monotonic (grid example_rdf) = true
    ∧ (grandcanonical (rdf_trajectory example_rdf) = false
       → cells (rdf_trajectory example_rdf) ≠ [])
    ∧ ((2 ≤ length (grid example_rdf))%nat
       ∨ processed_frames example_store example_rdf = []).
Proof.
  exact (proj1 (compute_returns_iff sqrt_rational example_store example_rdf eq_refl eq_refl)).
Defined.

(** ** The non-Gaussian parameter depends on the displacements only *)

Lemma fsquare_fsub_sym (a b : float) : fsquare (fsub a b) = fsquare (fsub b a).
Proof.
  destruct a as [p| | |], b as [q| | |]; try done.
  unfold fsquare, fsub. cbn [fneg fadd fmul]. f_equal; ring.
Qed.

Lemma squared_differences_sym (x y : array2) :
  array2_map fsquare (array2_op fsub x y) = array2_map fsquare (array2_op fsub y x).
Proof.
  unfold array2_map, array2_op, row_op. revert y.
  induction x as [|xi x IH]; intros [|yi y]; [done..|].
  cbn [zip_with map]. rewrite IH. f_equal.
  clear. revert yi. induction xi as [|a xi IH]; intros [|b yi]; [done..|].
  cbn [zip_with map]. by rewrite IH, fsquare_fsub_sym.
Qed.

Lemma non_gaussian_moments_sym (x y : array2) :
  length x = length y → non_gaussian_moments x y = non_gaussian_moments y x.
Proof.
  intros Hlen. unfold non_gaussian_moments.
  by rewrite (squared_differences_sym x y), Hlen.
Qed.

(** X17.  The non-Gaussian parameter does not tell the origin from the target:
    for two arrays with the same number of rows, exchanging the arguments gives
    the same result. *)
Theorem non_gaussian_parameter_symmetric (store : addr → array2) (x y : addr) :
  length (store x) = length (store y) →
  non_gaussian_parameter store x y = non_gaussian_parameter store y x.
Proof.
  intros Hlen. unfold non_gaussian_parameter, is_. rewrite (Nat.eqb_sym y x).
  destruct (x =? y)%nat; [done|]. by apply non_gaussian_moments_sym.
Qed.

Lemma non_gaussian_parameter_symmetric_witness :
  non_gaussian_parameter example_arrays 0%nat 1%nat
  = non_gaussian_parameter example_arrays 1%nat 0%nat.
Proof.
  exact (non_gaussian_parameter_symmetric example_arrays 0%nat 1%nat eq_refl).
Defined.

(** ** What analyze records *)

(** The outcomes of the body of the [try]: it raises and leaves the object as
    it was, or it ends with both entries recorded. *)
Lemma analyze_body_cases (import_ifabsmm : result (pyval → pyval → result pyval))
    (self : NonGaussianParameter) :
  (∃ e, analyze_body import_ifabsmm self = (self, Raise e))
  ∨ (∃ ifabsmm report t a,
        import_ifabsmm = Ok ifabsmm
        ∧ ifabsmm (ngp_grid self) (ngp_value self) = Ok report
        ∧ py_getitem report 1 = Ok (PySeq [t; a])
        ∧ analyze_body import_ifabsmm self
          = (set_result "a2_star" a (set_result "t_star" t self), Ok tt)).
Proof.
  unfold analyze_body, mbind, stmt_bind, lift, read, update. cbn.
  destruct import_ifabsmm as [ifabsmm|e0]; [|by left; eexists].
  destruct (ifabsmm (ngp_grid self) (ngp_value self)) as [report|e1] eqn:Er;
    [|by left; eexists].
  destruct (py_getitem report 1) as [item|e2] eqn:Ei; [|by left; eexists].
  destruct item as [| | |[|t [|a [|? ?]]]]; cbn; try by left; eexists.
  right. by exists ifabsmm, report, t, a.
Qed.

(** X21.  When the import succeeds and the second item of what [ifabsmm]
    returns for the grid and the values is a pair, [analyze] records its two
    components under ['t_star'] and ['a2_star'], changes no other entry of
    [results], and leaves the grid and the values as they were. *)
Theorem analyze_records_peak (ifabsmm : pyval → pyval → result pyval)
    (self : NonGaussianParameter) (report t a : pyval) :
  ifabsmm (ngp_grid self) (ngp_value self) = Ok report →
  py_getitem report 1 = Ok (PySeq [t; a]) →
  let self' := (analyze (Ok ifabsmm) self).1 in
  (analyze (Ok ifabsmm) self).2 = Ok tt
  ∧ results self' !! "t_star" = Some t
  ∧ results self' !! "a2_star" = Some a
  ∧ (∀ k, k ≠ "t_star" → k ≠ "a2_star" → results self' !! k = results self !! k)
  ∧ ngp_grid self' = ngp_grid self
  ∧ ngp_value self' = ngp_value self.
Proof.
  intros Er Ei.
  unfold analyze, try_except, analyze_body, mbind, stmt_bind, lift, read, update.
  cbn. rewrite Er, Ei. cbn.
  split; [done|]. split.
  { rewrite lookup_insert_ne by done. by rewrite lookup_insert_eq. }
  split; [by rewrite lookup_insert_eq|].
  split; [|done].
  intros k Ht Ha. by rewrite !lookup_insert_ne.
Qed.

Lemma analyze_records_peak_witness :
  let self' := (analyze ifabsmm_peak example_ngp).1 in
  (analyze ifabsmm_peak example_ngp).2 = Ok tt
  ∧ results self' !! "t_star" = Some (PyFloat fone)
  ∧ results self' !! "a2_star" = Some (PyFloat fhalf)
  ∧ (∀ k, k ≠ "t_star" → k ≠ "a2_star" → results self' !! k = results example_ngp !! k)
  ∧ ngp_grid self' = ngp_grid example_ngp
  ∧ ngp_value self' = ngp_value example_ngp.
Proof.
  apply (analyze_records_peak _ example_ngp
           (PySeq [PySeq [PyFloat fzero; PyFloat fzero];
                   PySeq [PyFloat fone; PyFloat fhalf]])); reflexivity.
Defined.

(** X22.  Whatever the import and [ifabsmm] do, [analyze] raises nothing,
    leaves the grid and the values as they were, changes no entry of [results]
    other than ['t_star'] and ['a2_star'], and records both of them or leaves
    [results] as it was: never one without the other. *)
Theorem analyze_all_or_nothing (import_ifabsmm : result (pyval → pyval → result pyval))
    (self : NonGaussianParameter) :
  let self' := (analyze import_ifabsmm self).1 in
  (analyze import_ifabsmm self).2 = Ok tt
  ∧ ngp_grid self' = ngp_grid self
  ∧ ngp_value self' = ngp_value self
  ∧ (∀ k, k ≠ "t_star" → k ≠ "a2_star" → results self' !! k = results self !! k)
  ∧ (results self' = results self
     ∨ (is_Some (results self' !! "t_star") ∧ is_Some (results self' !! "a2_star"))).
Proof.
  cbn zeta. split; [apply analyze_never_raises|].
  unfold analyze, try_except.
  destruct (analyze_body_cases import_ifabsmm self)
    as [[e ->]|(f & report & t & a & _ & _ & _ & ->)]; cbn.
  - repeat split; auto.
  - split; [done|]. split; [done|]. split.
    + intros k Ht Ha. by rewrite !lookup_insert_ne.
    + right. split.
      * rewrite lookup_insert_ne by done. rewrite lookup_insert_eq. by eexists.
      * rewrite lookup_insert_eq. by eexists.
Qed.

(** * The kernels in binary64 *)

(** ** The pairwise summation *)

(** The fuel of [np_sum] is enough: the sum does not depend on it. *)
Lemma pairwise_sum_fuel (fuel fuel' : nat) (a : list Binary64.double) :
  (length a ≤ fuel)%nat → (length a ≤ fuel')%nat →
  Binary64.pairwise_sum fuel a = Binary64.pairwise_sum fuel' a.
Proof.
  revert fuel' a. induction fuel as [|fuel IH]; intros fuel' a Hf Hf'.
  - destruct a; [|simpl in Hf; lia]. by destruct fuel'.
  - destruct fuel' as [|fuel'].
    { destruct a; [|simpl in Hf'; lia]. done. }
    cbn [Binary64.pairwise_sum].
    destruct (length a <? 8)%nat; [done|].
    destruct (Nat.leb_spec (length a) 128) as [|Hn]; [done|].
    assert (H2 : (8 ≤ length a / 2 - (length a / 2) mod 8 < length a)%nat).
    { pose proof (Nat.div_mod_eq (length a) 2) as E.
      pose proof (Nat.mod_upper_bound (length a) 2 ltac:(lia)).
      pose proof (Nat.mod_upper_bound (length a / 2) 8 ltac:(lia)).
      lia. }
    rewrite (IH fuel' (take _ a)), (IH fuel' (drop _ a));
      rewrite ?length_take, ?length_drop; [done|lia..].
Qed.

(** ** The value of a double *)










(** ** The minimum image in binary64 *)








(** ** The non-Gaussian parameter in binary64 *)








